(** * NEXUS HQ: licensing, billing and wallet ledger

    A shallow embedding of the state-changing operations of
    [portal_server.py] (licences, machine activations, seller wallets) and
    [hq_server.py] (client registry, commission engine, subscription
    invoices), with the properties of the specification stated and settled
    against them; then the phone-home routes and the reports of the HQ
    server and the account handlers and statistics of the portal, with the
    invariants that hold in every database the servers reach.

    Conventions of the embedding.
    - A SQLite table is the list of its rows in rowid order (portal) or a
      finite map from its TEXT PRIMARY KEY to the row (HQ).  [fetchone] of a
      SELECT is the first matching row.  UNIQUE and PRIMARY KEY constraints
      are checked where the source inserts, and a violated constraint is the
      [sqlite3.IntegrityError] of the source.
    - Every handler opens a connection, and either commits at its end or
      closes the connection without a commit, which rolls the work back: a
      handler is one function from a database to a response and a database.
    - REAL columns and JSON numbers are exact rationals ([Q]); the rounding
      error of binary floating point is outside the embedding.
    - Values the source draws from [uuid.uuid4] or from the clock are
      arguments of the operation that uses them.  A timestamp is a number of
      microseconds on the time line ([Z]); the source stores ISO-8601
      strings, whose lexicographic order is the chronological one.
    - A missing or empty string argument ([None] or [''] in Python, both
      falsy) is the empty string. *)

From stdpp Require Import base option list strings pretty gmap fin_maps sorting.
From Stdlib Require Import ZArith QArith Qround Lqa Lia.
From Stdlib Require PrimFloat SpecFloat FloatOps Uint63.

Set Default Proof Using "Type".

(** ** Helpers shared by both servers *)

(** [cursor.execute('SELECT ... WHERE P').fetchone()]: the first row that
    satisfies [P], if any. *)
Definition fetchone {A} (P : A → Prop) `{∀ x, Decision (P x)} (rows : list A) : option A :=
  head (filter P rows).

(** [UPDATE table SET ... WHERE P]: every row that satisfies [P] is replaced
    by its image under [f]; the others stay. *)
Definition update_where {A} (P : A → Prop) `{∀ x, Decision (P x)} (f : A → A) (rows : list A) : list A :=
  (λ r, if decide (P r) then f r else r) <$> rows.

(** [SELECT COUNT( * ) ... WHERE P]. *)
Definition count_where {A} (P : A → Prop) `{∀ x, Decision (P x)} (rows : list A) : Z :=
  Z.of_nat (length (filter P rows)).

(** Python truthiness of a string argument. *)
Definition truthy (s : string) : bool := negb (bool_decide (s = ""%string)).

(** [x < y] on rationals, as a boolean. *)
Definition Qlt_bool (x y : Q) : bool := negb (Qle_bool y x).

(** Python's [round(x, ndigits)] on an exact value: the nearest multiple of
    [10 ^ -ndigits], a tie going to the even one. *)
Definition round_half_even (x : Q) : Z :=
  let f := Qfloor x in
  match (x - inject_Z f ?= 1 # 2)%Q with
  | Lt => f
  | Gt => (f + 1)%Z
  | Eq => if Z.even f then f else (f + 1)%Z
  end.

Definition py_round (x : Q) (ndigits : nat) : Q :=
  inject_Z (round_half_even (x * inject_Z (10 ^ Z.of_nat ndigits)))
  / inject_Z (10 ^ Z.of_nat ndigits).

(** The same rounding on IEEE binary64 values, as CPython computes it: the
    exact value of the double is rounded to a whole number of units of
    [10 ^ -ndigits], half to even, and the result is the double nearest to
    that decimal.  It serves to replay a computation of the embedding on
    the doubles of the source. *)
Module Binary64.
Import PrimFloat SpecFloat FloatOps.

Definition exact_value (x : float) : option Q :=
  match Prim2SF x with
  | S754_zero _ => Some 0
  | S754_finite s m e =>
      Some ((if s then - inject_Z (Z.pos m) else inject_Z (Z.pos m)) * Qpower 2 e)
  | _ => None
  end.

Definition float_of_Z (n : Z) : float :=
  if (n <? 0)%Z then opp (of_uint63 (Uint63.of_Z (- n)))
  else of_uint63 (Uint63.of_Z n).

Definition py_round (x : float) (ndigits : nat) : option float :=
  q ← exact_value x;
  Some (div (float_of_Z (round_half_even (q * inject_Z (10 ^ Z.of_nat ndigits))))
            (float_of_Z (10 ^ Z.of_nat ndigits))).

(** The two roundings of [record_sale] in [hq_server.py]: the fee and the
    retained amount. *)
Definition fee_split (sale_value commission_rate : float) : option (float * float) :=
  nexus_fee ← py_round (sale_value * (commission_rate / 100))%float 2;
  client_keeps ← py_round (sale_value - nexus_fee)%float 2;
  Some (nexus_fee, client_keeps).

(** The doubles 0.125 and 8.0, and those nearest to 0.01, 0.12 and 0.13. *)
Definition d0_125 : float := 0.125%float.
Definition d8 : float := 8%float.
Definition d0_01 : float := 0x1.47ae147ae147bp-7%float.
Definition d0_12 : float := 0x1.eb851eb851eb8p-4%float.
Definition d0_13 : float := 0x1.0a3d70a3d70a4p-3%float.

End Binary64.

(** What a Python function does: it returns a value or raises. *)
Inductive exception := IntegrityError.

Inductive outcome (A : Type) :=
  | Returned (a : A)
  | Raised (e : exception).
Arguments Returned {A} a.
Arguments Raised {A} e.

Module Portal.

(** *** Tables of [portal_server.init_db]

    The rows carry the columns the handlers below read or the properties
    speak about; [password_hash], the subscription columns of [users] and
    the creation and update stamps are left out, as are the tables
    [versions] and [audit_log], which no wallet or licence handler reads.
    Foreign keys are not enforced (the source never turns the pragma on). *)

Record user := {
  usr_id : Z;
  usr_email : string;
  usr_shop_name : string;
  usr_station_api_key : string
}.

Record license := {
  lic_id : Z;
  lic_license_key : string;
  lic_user_id : Z;
  lic_expires_at : option Z;
  lic_is_active : bool;
  lic_max_activations : Z
}.

(** A row of [clients]: one installation (activation) of a licence. *)
Record client := {
  cl_id : Z;
  cl_license_id : Z;
  cl_machine_id : string;
  cl_machine_name : string;
  cl_ip_address : string;
  cl_version : string;
  cl_last_seen : Z;
  cl_first_seen : Z
}.

Record wallet := {
  wal_id : Z;
  wal_user_id : Z;
  wal_balance : Q;
  wal_pending_balance : Q;
  wal_total_earned : Q;
  wal_total_withdrawn : Q;
  wal_payout_email : option string;
  wal_payout_method : string
}.

Record wallet_transaction := {
  tx_id : Z;
  tx_wallet_id : Z;
  tx_type : string;
  tx_amount : Q;
  tx_description : string;
  tx_order_id : option string;
  tx_status : string
}.

(** The database: the five tables the modelled handlers touch, and the
    [sqlite_sequence] counter of each AUTOINCREMENT key (the largest id ever
    handed out by the table). *)
Record db := {
  users : list user;
  licenses : list license;
  clients : list client;
  wallets : list wallet;
  wallet_transactions : list wallet_transaction;
  seq_users : Z;
  seq_licenses : Z;
  seq_clients : Z;
  seq_wallets : Z;
  seq_wallet_transactions : Z
}.

Definition init_db : db :=
  {| users := []; licenses := []; clients := []; wallets := [];
     wallet_transactions := [];
     seq_users := 0; seq_licenses := 0; seq_clients := 0; seq_wallets := 0;
     seq_wallet_transactions := 0 |}.

(** *** Responses

    One constructor per JSON body the handlers return; the HTTP status is
    given with each. *)
Inductive response :=
  | LicenseKeyRequired                      (* 401 'License key required' *)
  | InvalidLicense                          (* 401 'Invalid license' *)
  | LicenseExpired                          (* 401 'License expired' *)
  | AdminAccessRequired                     (* 403 'Admin access required' *)
  | EmailAndPasswordRequired                (* 400 'Email and password required' *)
  | EmailAlreadyRegistered                  (* 409, any sqlite3.IntegrityError *)
  | Registered (user_id : Z) (license_key station_api_key : string)
  | ActivationLimitReached (max_activations : Z)
                                            (* 403 'Maximum activations (n) reached' *)
  | Valid (client_id activations_used max_activations : Z)
  | StationKey (station_api_key : string)
  | WalletInfo (w : wallet)
  | PayoutUpdated
  | InvalidAmount                           (* 400 'Invalid amount' *)
  | InsufficientBalance                     (* 400 'Insufficient balance' *)
  | Withdrawn (new_balance withdrawal_amount : Q)
  | InvalidRequest                          (* 400 'Invalid request' *)
  | SellerNotFound                          (* 404 'Seller not found' *)
  | WalletNotFound                          (* 404 'Wallet not found' *)
  | Credited (new_balance : Q)
  | InternalServerError.                    (* 500, an uncaught exception *)

(** *** [require_license]

    The decorator looks the licence up by the [X-License-Key] header among
    the active licences, rejects an expired one and hands the row to the
    handler as [request.license]. *)
Definition require_license (d : db) (license_key : string) (now : Z) : response + license :=
  if negb (truthy license_key) then inl LicenseKeyRequired
  else
    match fetchone (λ l, lic_license_key l = license_key ∧ lic_is_active l = true) (licenses d) with
    | None => inl InvalidLicense
    | Some l =>
        match lic_expires_at l with
        | Some e => if decide (e < now)%Z then inl LicenseExpired else inr l
        | None => inr l
        end
    end.

(** [os.environ.get("NEXUS_SECRET", "nexus-dev-key-change-in-prod")]. *)
Definition SECRET_KEY (NEXUS_SECRET : option string) : string :=
  default "nexus-dev-key-change-in-prod"%string NEXUS_SECRET.

(** [require_admin]: the [X-Admin-Key] header, when present, must be the
    secret. *)
Definition require_admin (NEXUS_SECRET : option string) (admin_key : option string) : bool :=
  bool_decide (admin_key = Some (SECRET_KEY NEXUS_SECRET)).

(** *** [register] *)
Definition register (d : db) (email password shop_name : string)
    (station_api_key license_key : string) : response * db :=
  if negb (truthy email) || negb (truthy password) then (EmailAndPasswordRequired, d)
  else
    let user_id := (seq_users d + 1)%Z in
    if bool_decide (Exists (λ u, usr_email u = email) (users d))
       || bool_decide (Exists (λ u, usr_station_api_key u = station_api_key) (users d))
       || bool_decide (Exists (λ l, lic_license_key l = license_key) (licenses d))
       || bool_decide (Exists (λ w, wal_user_id w = user_id) (wallets d))
    then (EmailAlreadyRegistered, d)
    else
      (Registered user_id license_key station_api_key,
       {| users := users d ++
            [{| usr_id := user_id; usr_email := email; usr_shop_name := shop_name;
                usr_station_api_key := station_api_key |}];
          licenses := licenses d ++
            [{| lic_id := seq_licenses d + 1; lic_license_key := license_key;
                lic_user_id := user_id; lic_expires_at := None;
                lic_is_active := true; lic_max_activations := 3 |}];
          clients := clients d;
          wallets := wallets d ++
            [{| wal_id := seq_wallets d + 1; wal_user_id := user_id;
                wal_balance := 0; wal_pending_balance := 0;
                wal_total_earned := 0; wal_total_withdrawn := 0;
                wal_payout_email := Some email; wal_payout_method := "paypal" |}];
          wallet_transactions := wallet_transactions d;
          seq_users := user_id;
          seq_licenses := seq_licenses d + 1;
          seq_clients := seq_clients d;
          seq_wallets := seq_wallets d + 1;
          seq_wallet_transactions := seq_wallet_transactions d |}).

(** *** [validate_license] *)

(** The JSON body of the request with its defaults applied
    ([machine_id] defaults to a digest of the caller's address), the
    caller's address and the reading of [CURRENT_TIMESTAMP]. *)
Record validation := {
  machine_id : string;
  machine_name : string;
  version : string;
  remote_addr : string;
  current_timestamp : Z
}.

Definition with_clients (d : db) (cs : list client) (seq : Z) : db :=
  {| users := users d; licenses := licenses d; clients := cs;
     wallets := wallets d; wallet_transactions := wallet_transactions d;
     seq_users := seq_users d; seq_licenses := seq_licenses d;
     seq_clients := seq; seq_wallets := seq_wallets d;
     seq_wallet_transactions := seq_wallet_transactions d |}.

(** [SELECT COUNT( * ) FROM clients WHERE license_id = ?]. *)
Definition activations (d : db) (license_id : Z) : Z :=
  count_where (λ c, cl_license_id c = license_id) (clients d).

(** [SELECT * FROM clients WHERE license_id = ? AND machine_id = ?]. *)
Definition existing (d : db) (license_id : Z) (mid : string) : option client :=
  fetchone (λ c, cl_license_id c = license_id ∧ cl_machine_id c = mid) (clients d).

(** The SET clause of the UPDATE on an activation that exists. *)
Definition touch (v : validation) (c : client) : client :=
  {| cl_id := cl_id c; cl_license_id := cl_license_id c;
     cl_machine_id := cl_machine_id c;
     cl_machine_name := machine_name v; cl_ip_address := remote_addr v;
     cl_version := version v; cl_last_seen := current_timestamp v;
     cl_first_seen := cl_first_seen c |}.

Definition validate_license (d : db) (request_license : license) (v : validation)
    : response * db :=
  let license_id := lic_id request_license in
  let max_activations := lic_max_activations request_license in
  let ex := existing d license_id (machine_id v) in
  if negb (bool_decide (is_Some ex)) && bool_decide (max_activations ≤ activations d license_id)%Z
  then (ActivationLimitReached max_activations, d)
  else
    match ex with
    | Some e =>
        (Valid (cl_id e) (activations d license_id + 0) max_activations,
         with_clients d (update_where (λ c, cl_id c = cl_id e) (touch v) (clients d))
           (seq_clients d))
    | None =>
        let client_id := (seq_clients d + 1)%Z in
        (Valid client_id (activations d license_id + 1) max_activations,
         with_clients d
           (clients d ++
              [{| cl_id := client_id; cl_license_id := license_id;
                  cl_machine_id := machine_id v; cl_machine_name := machine_name v;
                  cl_ip_address := remote_addr v; cl_version := version v;
                  cl_last_seen := current_timestamp v;
                  cl_first_seen := current_timestamp v |}])
           client_id)
    end.

(** *** Wallet handlers *)

Definition with_wallets (d : db) (ws : list wallet) (seq : Z)
    (txs : list wallet_transaction) (seq_tx : Z) : db :=
  {| users := users d; licenses := licenses d; clients := clients d;
     wallets := ws; wallet_transactions := txs;
     seq_users := seq_users d; seq_licenses := seq_licenses d;
     seq_clients := seq_clients d; seq_wallets := seq;
     seq_wallet_transactions := seq_tx |}.

(** [SELECT user_id FROM licenses WHERE id = ?] followed by
    [.fetchone()['user_id']]; subscripting [None] raises. *)
Definition license_user_id (d : db) (request_license : license) : option Z :=
  lic_user_id <$> fetchone (λ l, lic_id l = lic_id request_license) (licenses d).

(** [SELECT * FROM wallets WHERE user_id = ?]. *)
Definition wallet_of_user (d : db) (user_id : Z) : option wallet :=
  fetchone (λ w, wal_user_id w = user_id) (wallets d).

Definition set_balance (b : Q) (w : wallet) : wallet :=
  {| wal_id := wal_id w; wal_user_id := wal_user_id w; wal_balance := b;
     wal_pending_balance := wal_pending_balance w;
     wal_total_earned := wal_total_earned w;
     wal_total_withdrawn := wal_total_withdrawn w;
     wal_payout_email := wal_payout_email w;
     wal_payout_method := wal_payout_method w |}.

Definition set_balance_earned (b e : Q) (w : wallet) : wallet :=
  {| wal_id := wal_id w; wal_user_id := wal_user_id w; wal_balance := b;
     wal_pending_balance := wal_pending_balance w;
     wal_total_earned := e;
     wal_total_withdrawn := wal_total_withdrawn w;
     wal_payout_email := wal_payout_email w;
     wal_payout_method := wal_payout_method w |}.

Definition set_payout (email : option string) (method : string) (w : wallet) : wallet :=
  {| wal_id := wal_id w; wal_user_id := wal_user_id w; wal_balance := wal_balance w;
     wal_pending_balance := wal_pending_balance w;
     wal_total_earned := wal_total_earned w;
     wal_total_withdrawn := wal_total_withdrawn w;
     wal_payout_email := email; wal_payout_method := method |}.

(** [get_wallet]: reads the caller's wallet and creates it, with the column
    defaults, when it is missing.  The listing of the last transactions in
    the response is a read of [wallet_transactions] and is left out. *)
Definition get_wallet (d : db) (request_license : license) : response * db :=
  match license_user_id d request_license with
  | None => (InternalServerError, d)
  | Some user_id =>
      match wallet_of_user d user_id with
      | Some w => (WalletInfo w, d)
      | None =>
          let d' :=
            with_wallets d
              (wallets d ++
                 [{| wal_id := seq_wallets d + 1; wal_user_id := user_id;
                     wal_balance := 0; wal_pending_balance := 0;
                     wal_total_earned := 0; wal_total_withdrawn := 0;
                     wal_payout_email := None; wal_payout_method := "paypal" |}])
              (seq_wallets d + 1) (wallet_transactions d) (seq_wallet_transactions d) in
          match wallet_of_user d' user_id with
          | Some w => (WalletInfo w, d')
          | None => (InternalServerError, d')
          end
      end
  end.

Definition update_payout_settings (d : db) (request_license : license)
    (payout_email : option string) (payout_method : string) : response * db :=
  match license_user_id d request_license with
  | None => (InternalServerError, d)
  | Some user_id =>
      (PayoutUpdated,
       with_wallets d
         (update_where (λ w, wal_user_id w = user_id)
            (set_payout payout_email payout_method) (wallets d))
         (seq_wallets d) (wallet_transactions d) (seq_wallet_transactions d))
  end.

Definition request_withdrawal (d : db) (request_license : license) (amount : Q)
    : response * db :=
  if Qle_bool amount 0 then (InvalidAmount, d)
  else
    match license_user_id d request_license with
    | None => (InternalServerError, d)
    | Some user_id =>
        match wallet_of_user d user_id with
        | None => (InsufficientBalance, d)
        | Some w =>
            if Qlt_bool (wal_balance w) amount then (InsufficientBalance, d)
            else
              let new_balance := wal_balance w - amount in
              (Withdrawn new_balance amount,
               with_wallets d
                 (update_where (λ x, wal_user_id x = user_id)
                    (set_balance new_balance) (wallets d))
                 (seq_wallets d)
                 (wallet_transactions d ++
                    [{| tx_id := seq_wallet_transactions d + 1;
                        tx_wallet_id := wal_id w; tx_type := "withdrawal";
                        tx_amount := - amount;
                        tx_description := "Withdrawal request";
                        tx_order_id := None; tx_status := "pending" |}])
                 (seq_wallet_transactions d + 1))
        end
    end.

Definition credit_wallet (d : db) (station_api_key : string) (amount : Q)
    (order_id : option string) (description : string) : response * db :=
  if negb (truthy station_api_key) || Qle_bool amount 0 then (InvalidRequest, d)
  else
    match fetchone (λ u, usr_station_api_key u = station_api_key) (users d) with
    | None => (SellerNotFound, d)
    | Some u =>
        match wallet_of_user d (usr_id u) with
        | None => (WalletNotFound, d)
        | Some w =>
            let new_balance := wal_balance w + amount in
            let new_total := wal_total_earned w + amount in
            (Credited new_balance,
             with_wallets d
               (update_where (λ x, wal_id x = wal_id w)
                  (set_balance_earned new_balance new_total) (wallets d))
               (seq_wallets d)
               (wallet_transactions d ++
                  [{| tx_id := seq_wallet_transactions d + 1;
                      tx_wallet_id := wal_id w; tx_type := "credit";
                      tx_amount := amount; tx_description := description;
                      tx_order_id := order_id; tx_status := "completed" |}])
               (seq_wallet_transactions d + 1))
        end
    end.

(** *** [regenerate_station_key]

    The UPDATE addresses the user of the licence; a key that another user
    holds violates the UNIQUE constraint, which the handler does not catch. *)
Definition set_station_api_key (key : string) (u : user) : user :=
  {| usr_id := usr_id u; usr_email := usr_email u; usr_shop_name := usr_shop_name u;
     usr_station_api_key := key |}.

Definition regenerate_station_key (d : db) (request_license : license) (new_key : string)
    : response * db :=
  match license_user_id d request_license with
  | None => (StationKey new_key, d)
  | Some user_id =>
      if bool_decide (Exists (λ u, usr_station_api_key u = new_key ∧ usr_id u ≠ user_id)
                        (users d))
      then (InternalServerError, d)
      else
        (StationKey new_key,
         {| users := update_where (λ u, usr_id u = user_id)
                       (set_station_api_key new_key) (users d);
            licenses := licenses d; clients := clients d; wallets := wallets d;
            wallet_transactions := wallet_transactions d;
            seq_users := seq_users d; seq_licenses := seq_licenses d;
            seq_clients := seq_clients d; seq_wallets := seq_wallets d;
            seq_wallet_transactions := seq_wallet_transactions d |})
  end.

(** *** The server as a transition system

    A call is one HTTP request with the values the handler draws from its
    environment; [step] runs the decorator of the route and then the
    handler. *)
Inductive call :=
  | Register (email password shop_name station_api_key license_key : string)
  | ValidateLicense (license_key : string) (now : Z) (v : validation)
  | GetWallet (license_key : string) (now : Z)
  | UpdatePayoutSettings (license_key : string) (now : Z)
      (payout_email : option string) (payout_method : string)
  | RequestWithdrawal (license_key : string) (now : Z) (amount : Q)
  | CreditWallet (admin_key : option string) (station_api_key : string)
      (amount : Q) (order_id : option string) (description : string)
  | RegenerateStationKey (license_key : string) (now : Z) (new_key : string).

Definition licensed (d : db) (license_key : string) (now : Z)
    (handler : license → response * db) : response * db :=
  match require_license d license_key now with
  | inl err => (err, d)
  | inr l => handler l
  end.

Definition step (NEXUS_SECRET : option string) (d : db) (c : call) : response * db :=
  match c with
  | Register email password shop_name station_api_key license_key =>
      register d email password shop_name station_api_key license_key
  | ValidateLicense key now v => licensed d key now (λ l, validate_license d l v)
  | GetWallet key now => licensed d key now (λ l, get_wallet d l)
  | UpdatePayoutSettings key now email method =>
      licensed d key now (λ l, update_payout_settings d l email method)
  | RequestWithdrawal key now amount =>
      licensed d key now (λ l, request_withdrawal d l amount)
  | CreditWallet admin_key station_api_key amount order_id description =>
      if require_admin NEXUS_SECRET admin_key
      then credit_wallet d station_api_key amount order_id description
      else (AdminAccessRequired, d)
  | RegenerateStationKey key now new_key =>
      licensed d key now (λ l, regenerate_station_key d l new_key)
  end.

(** The database after a sequence of calls, oldest first. *)
Definition run (NEXUS_SECRET : option string) (d : db) (cs : list call) : db :=
  foldl (λ d c, (step NEXUS_SECRET d c).2) d cs.

Definition reachable (NEXUS_SECRET : option string) (d : db) : Prop :=
  ∃ cs, d = run NEXUS_SECRET init_db cs.

(** *** Quantities the properties speak about *)


(** The log of a wallet, oldest entry first. *)
Definition transactions_of (d : db) (wallet_id : Z) : list wallet_transaction :=
  filter (λ t, tx_wallet_id t = wallet_id) (wallet_transactions d).

(** The signed sum of the amounts of a log. *)
Definition signed_sum (txs : list wallet_transaction) : Q :=
  foldr (λ t acc, tx_amount t + acc) 0 txs.

(** *** Invariants

    The constraints of the schema the handlers rely on (keys are unique and
    come from the AUTOINCREMENT counters, a foreign key names an id that
    was handed out) with the properties they maintain. *)
Record activation_inv (d : db) : Prop := {
  lic_ids_unique : NoDup (lic_id <$> licenses d);
  lic_ids_issued : ∀ l, l ∈ licenses d → (lic_id l ≤ seq_licenses d)%Z;
  cl_license_issued : ∀ c, c ∈ clients d → (cl_license_id c ≤ seq_licenses d)%Z;
  within_limit :
    ∀ l, l ∈ licenses d → (activations d (lic_id l) ≤ lic_max_activations l)%Z
}.

Record ledger_inv (d : db) : Prop := {
  wal_users_unique : NoDup (wal_user_id <$> wallets d);
  wal_ids_unique : NoDup (wal_id <$> wallets d);
  wal_ids_issued : ∀ w, w ∈ wallets d → (wal_id w ≤ seq_wallets d)%Z;
  tx_wallet_issued :
    ∀ t, t ∈ wallet_transactions d → (tx_wallet_id t ≤ seq_wallets d)%Z;
  balance_is_sum :
    ∀ w, w ∈ wallets d → wal_balance w == signed_sum (transactions_of d (wal_id w));
  balance_nonneg : ∀ w, w ∈ wallets d → 0 <= wal_balance w
}.

(** *** Sample sessions *)

Definition dev_admin_key : option string := Some "nexus-dev-key-change-in-prod"%string.

(** A seller registers and is credited 50.00 for order O1. *)
Definition seller_calls : list call :=
  [Register "seller@example.com" "secret" "Acme Cards" "nxs_seller" "NEXUS-0000AAAA-0000BBBB";
   CreditWallet dev_admin_key "nxs_seller" 50 (Some "O1"%string) "Sale credit"].

Definition seller_db : db := run None init_db seller_calls.

Definition seller_license : license :=
  {| lic_id := 1; lic_license_key := "NEXUS-0000AAAA-0000BBBB"; lic_user_id := 1;
     lic_expires_at := None; lic_is_active := true; lic_max_activations := 3 |}.

(** The seller then asks to withdraw 30.00. *)
Definition ledger_calls : list call :=
  seller_calls ++ [RequestWithdrawal "NEXUS-0000AAAA-0000BBBB" 20 30].

Definition ledger_db : db := run None init_db ledger_calls.

Definition station (machine : string) (t : Z) : validation :=
  {| machine_id := machine; machine_name := "till"; version := "3.0.1";
     remote_addr := "192.168.1.20"; current_timestamp := t |}.

(** The seller's licence is validated from three machines. *)
Definition station_calls : list call :=
  seller_calls ++
  [ValidateLicense "NEXUS-0000AAAA-0000BBBB" 10 (station "m1" 10);
   ValidateLicense "NEXUS-0000AAAA-0000BBBB" 11 (station "m2" 11);
   ValidateLicense "NEXUS-0000AAAA-0000BBBB" 12 (station "m3" 12)].

Definition station_db : db := run None init_db station_calls.

End Portal.

Module HQ.

(** *** Subscription tiers *)

Record tier_info := {
  tier_name : string;
  price : Q;
  commission : Q
}.

Definition TIERS : gmap string tier_info :=
  list_to_map
    [("starter"%string,      {| tier_name := "Starter";           price := 29;  commission := 8 |});
     ("professional"%string, {| tier_name := "Professional";      price := 79;  commission := 6 |});
     ("enterprise"%string,   {| tier_name := "Enterprise";        price := 199; commission := 4 |});
     ("founders"%string,     {| tier_name := "Founder's Edition"; price := 0;   commission := 5 |})].

#[global] Instance tier_info_inhabited : Inhabited tier_info :=
  populate {| tier_name := ""; price := 0; commission := 0 |}.

(** [TIERS.get(tier, TIERS['starter'])]. *)
Definition tier_or_starter (tier : string) : tier_info :=
  default (TIERS !!! "starter"%string) (TIERS !! tier).

Definition get_commission_rate (tier : string) : Q := commission (tier_or_starter tier).

Definition get_monthly_fee (tier : string) : Q := price (tier_or_starter tier).

(** *** Tables of [hq_server.init_db]

    [clients], [sales] and [subscription_invoices] have a TEXT PRIMARY KEY
    and are maps from that key to the other columns.  [scans] and
    [grading_disputes] and the Stripe and billing-address columns are left
    out: no operation below reads them.  Foreign keys are not enforced (the
    source never turns the pragma on), so a sale may name a client id that
    is not in [clients]. *)

Record client := {
  name : string;
  email : string;
  api_key : string;
  subscription_tier : string;
  commission_rate : Q;
  monthly_fee : Q;
  status : string;
  created_at : Z;
  last_seen : Z;
  location : string;
  contact_phone : string;
  notes : string;
  next_billing_date : option Z
}.

Record sale := {
  sale_client_id : string;
  deck_name : string;
  format : string;
  card_count : Z;
  sale_value : Q;
  nexus_fee : Q;
  client_keeps : Q;
  sold_at : Z;
  cards_json : string
}.

Record invoice := {
  inv_client_id : string;
  inv_tier : string;
  inv_amount : Q;
  inv_period_start : Z;
  inv_period_end : Z;
  inv_status : string;
  inv_paid_at : option Z;
  inv_payment_method : option string;
  inv_created_at : Z
}.

Record db := {
  clients : gmap string client;
  sales : gmap string sale;
  subscription_invoices : gmap string invoice
}.

Definition init_db : db :=
  {| clients := ∅; sales := ∅; subscription_invoices := ∅ |}.

Definition with_clients (d : db) (cs : gmap string client) : db :=
  {| clients := cs; sales := sales d; subscription_invoices := subscription_invoices d |}.

(** *** Client management

    [register_client] is given strings for its arguments, as its route
    does. *)

Inductive register_result :=
  | RegisterSuccess (client_id api_key tier : string) (commission monthly_fee : Q)
  | RegisterFailure.            (* {'success': False, 'error': str(e)} *)

(** A column value already present in [clients]. *)
Definition taken {A} (col : client → A) `{EqDecision A} (v : A) (d : db) : bool :=
  bool_decide (map_Exists (λ _ c, col c = v) (clients d)).

Definition register_client (d : db) (name email tier location phone notes : string)
    (client_id api_key : string) (created last : Z) : register_result * db :=
  let commission := get_commission_rate tier in
  let monthly_fee := get_monthly_fee tier in
  if bool_decide (is_Some (clients d !! client_id))
     || taken HQ.email email d || taken HQ.api_key api_key d
  then (RegisterFailure, d)
  else
    (RegisterSuccess client_id api_key tier commission monthly_fee,
     with_clients d
       (<[client_id :=
            {| name := name; email := email; api_key := api_key;
               subscription_tier := tier; commission_rate := commission;
               monthly_fee := monthly_fee; status := "active";
               created_at := created; last_seen := last;
               location := location; contact_phone := phone; notes := notes;
               next_billing_date := None |}]> (clients d))).

Definition set_last_seen (t : Z) (c : client) : client :=
  {| name := name c; email := email c; api_key := api_key c;
     subscription_tier := subscription_tier c;
     commission_rate := commission_rate c; monthly_fee := monthly_fee c;
     status := status c; created_at := created_at c; last_seen := t;
     location := location c; contact_phone := contact_phone c;
     notes := notes c; next_billing_date := next_billing_date c |}.

Definition update_last_seen (d : db) (client_id : string) (now : Z) : db :=
  with_clients d (alter (set_last_seen now) client_id (clients d)).

(** *** Sales tracking *)

Record sale_receipt := {
  r_sale_id : string;
  r_sale_value : Q;
  r_nexus_fee : Q;
  r_client_keeps : Q;
  r_commission_rate : Q
}.

Definition record_sale (d : db) (client_id deck_name format : string) (card_count : Z)
    (sale_value : Q) (cards_json : string) (sale_id : string) (now : Z)
    : outcome sale_receipt * db :=
  let row := clients d !! client_id in
  let commission_rate := match row with Some c => commission_rate c | None => 8 end in
  let nexus_fee := py_round (sale_value * (commission_rate / 100)) 2 in
  let client_keeps := py_round (sale_value - nexus_fee) 2 in
  if bool_decide (is_Some (sales d !! sale_id)) then (Raised IntegrityError, d)
  else
    (Returned {| r_sale_id := sale_id; r_sale_value := sale_value;
                 r_nexus_fee := nexus_fee; r_client_keeps := client_keeps;
                 r_commission_rate := commission_rate |},
     {| clients := clients d;
        sales := <[sale_id :=
                     {| sale_client_id := client_id; deck_name := deck_name;
                        format := format; card_count := card_count;
                        sale_value := sale_value; nexus_fee := nexus_fee;
                        client_keeps := client_keeps; sold_at := now;
                        cards_json := cards_json |}]> (sales d);
        subscription_invoices := subscription_invoices d |}).

(** *** Subscription management *)

Record invoice_receipt := {
  r_invoice_id : string;
  r_client_id : string;
  r_tier : string;
  r_amount : Q;
  r_period_start : Z;
  r_period_end : Z;
  r_status : string
}.

(** [timedelta(days=n)] in microseconds, the resolution of [datetime]. *)
Definition timedelta_days (n : Z) : Z := n * 86400000000.

Definition set_next_billing_date (t : Z) (c : client) : client :=
  {| name := name c; email := email c; api_key := api_key c;
     subscription_tier := subscription_tier c;
     commission_rate := commission_rate c; monthly_fee := monthly_fee c;
     status := status c; created_at := created_at c; last_seen := last_seen c;
     location := location c; contact_phone := contact_phone c;
     notes := notes c; next_billing_date := Some t |}.

(** [tier or row['subscription_tier']]: [None] and [''] are falsy. *)
Definition tier_or (tier : option string) (fallback : string) : string :=
  match tier with
  | Some t => if truthy t then t else fallback
  | None => fallback
  end.

Definition create_invoice (d : db) (client_id : string) (tier : option string)
    (invoice_id : string) (now created : Z) : outcome (option invoice_receipt) * db :=
  match clients d !! client_id with
  | None => (Returned None, d)
  | Some row =>
      let tier := tier_or tier (subscription_tier row) in
      let amount := price (tier_or_starter tier) in
      let period_start := now in
      let period_end := (period_start + timedelta_days 30)%Z in
      if bool_decide (is_Some (subscription_invoices d !! invoice_id))
      then (Raised IntegrityError, d)
      else
        (Returned (Some {| r_invoice_id := invoice_id; r_client_id := client_id;
                           r_tier := tier; r_amount := amount;
                           r_period_start := period_start;
                           r_period_end := period_end; r_status := "pending" |}),
         {| clients := alter (set_next_billing_date period_end) client_id (clients d);
            sales := sales d;
            subscription_invoices :=
              <[invoice_id :=
                  {| inv_client_id := client_id; inv_tier := tier;
                     inv_amount := amount; inv_period_start := period_start;
                     inv_period_end := period_end; inv_status := "pending";
                     inv_paid_at := None; inv_payment_method := None;
                     inv_created_at := created |}]> (subscription_invoices d) |})
  end.

Definition set_paid (t : Z) (payment_method : string) (i : invoice) : invoice :=
  {| inv_client_id := inv_client_id i; inv_tier := inv_tier i;
     inv_amount := inv_amount i; inv_period_start := inv_period_start i;
     inv_period_end := inv_period_end i; inv_status := "paid";
     inv_paid_at := Some t; inv_payment_method := Some payment_method;
     inv_created_at := inv_created_at i |}.

Definition mark_invoice_paid (d : db) (invoice_id payment_method : string) (now : Z)
    : bool * db :=
  (true,
   {| clients := clients d; sales := sales d;
      subscription_invoices :=
        alter (set_paid now payment_method) invoice_id (subscription_invoices d) |}).

Inductive tier_result :=
  | TierChanged (new_tier : string) (commission_rate monthly_fee : Q)
  | InvalidTier.                (* {'success': False, 'error': 'Invalid tier'} *)

Definition set_tier (t : string) (rate fee : Q) (c : client) : client :=
  {| name := name c; email := email c; api_key := api_key c;
     subscription_tier := t; commission_rate := rate; monthly_fee := fee;
     status := status c; created_at := created_at c; last_seen := last_seen c;
     location := location c; contact_phone := contact_phone c;
     notes := notes c; next_billing_date := next_billing_date c |}.

Definition change_client_tier (d : db) (client_id new_tier : string) : tier_result * db :=
  match TIERS !! new_tier with
  | None => (InvalidTier, d)
  | Some tier_info =>
      (TierChanged new_tier (commission tier_info) (price tier_info),
       with_clients d
         (alter (set_tier new_tier (commission tier_info) (price tier_info))
            client_id (clients d)))
  end.

(** The WHERE clause of the scan in [generate_monthly_invoices]. *)
Definition is_due (today : Z) (c : client) : bool :=
  bool_decide (status c = "active"%string)
  && Qlt_bool 0 (monthly_fee c)
  && match next_billing_date c with
     | None => true
     | Some t => bool_decide (t ≤ today)%Z
     end.

(** The ids the scan returns.  SQL leaves the order of the rows open; the
    order of the map is taken. *)
Definition clients_due (d : db) (today : Z) : list string :=
  (map_to_list (filter (λ kv, is_due today kv.2 = true) (clients d))).*1.

(** What one [create_invoice] draws from its environment. *)
Record draw := {
  draw_invoice_id : string;
  draw_now : Z;
  draw_created : Z
}.

(** The loop of [generate_monthly_invoices]: the [k]-th call of
    [create_invoice] uses the [k]-th draw; an exception leaves the loop with
    the invoices committed so far. *)
Fixpoint create_invoices (d : db) (ids : list string) (env : nat → draw) (k : nat)
    (invoices_created : list invoice_receipt) : outcome (list invoice_receipt) * db :=
  match ids with
  | [] => (Returned invoices_created, d)
  | client_id :: rest =>
      let e := env k in
      match create_invoice d client_id None (draw_invoice_id e) (draw_now e) (draw_created e) with
      | (Raised ex, d') => (Raised ex, d')
      | (Returned None, d') => create_invoices d' rest env (S k) invoices_created
      | (Returned (Some i), d') => create_invoices d' rest env (S k) (invoices_created ++ [i])
      end
  end.

Definition generate_monthly_invoices (d : db) (today : Z) (env : nat → draw)
    : outcome (list invoice_receipt) * db :=
  create_invoices d (clients_due d today) env 0 [].

(** *** The server as a transition system *)
Inductive call :=
  | RegisterClient (name email tier location phone notes client_id api_key : string)
      (created last : Z)
  | UpdateLastSeen (client_id : string) (now : Z)
  | RecordSale (client_id deck_name format : string) (card_count : Z) (sale_value : Q)
      (cards_json sale_id : string) (now : Z)
  | CreateInvoice (client_id : string) (tier : option string) (invoice_id : string)
      (now created : Z)
  | MarkInvoicePaid (invoice_id payment_method : string) (now : Z)
  | ChangeClientTier (client_id new_tier : string)
  | GenerateMonthlyInvoices (today : Z) (env : nat → draw).

Definition step (d : db) (c : call) : db :=
  match c with
  | RegisterClient name email tier location phone notes client_id api_key created last =>
      (register_client d name email tier location phone notes client_id api_key created last).2
  | UpdateLastSeen client_id now => update_last_seen d client_id now
  | RecordSale client_id deck_name format card_count sale_value cards_json sale_id now =>
      (record_sale d client_id deck_name format card_count sale_value cards_json sale_id now).2
  | CreateInvoice client_id tier invoice_id now created =>
      (create_invoice d client_id tier invoice_id now created).2
  | MarkInvoicePaid invoice_id payment_method now =>
      (mark_invoice_paid d invoice_id payment_method now).2
  | ChangeClientTier client_id new_tier => (change_client_tier d client_id new_tier).2
  | GenerateMonthlyInvoices today env => (generate_monthly_invoices d today env).2
  end.

Definition run (d : db) (cs : list call) : db := foldl step d cs.

Definition reachable (d : db) : Prop := ∃ cs, d = run init_db cs.

(** *** Invariant and sample sessions *)

(** The pricing columns of every client are the ones [register_client] and
    [change_client_tier] compute for the client's tier. *)
Definition priced (c : client) : Prop :=
  commission_rate c = get_commission_rate (subscription_tier c)
  ∧ monthly_fee c = get_monthly_fee (subscription_tier c).

Definition pricing_inv (d : db) : Prop :=
  ∀ id c, clients d !! id = Some c → priced c.


(** The shop Acme registers on the starter tier. *)
Definition acme_calls : list call :=
  [RegisterClient "Acme" "owner@acme.example" "starter" "" "" "" "ACME0001" "nxs_acme" 0 0].

Definition acme_db : db := run init_db acme_calls.

(** A shop registers with a tier name that is not in [TIERS]. *)
Definition midas_calls : list call :=
  [RegisterClient "Midas" "owner@midas.example" "gold" "" "" "" "MIDAS001" "nxs_midas" 0 0].

Definition midas_db : db := run init_db midas_calls.

(** A number with at most two decimal places. *)
Definition whole_cents (x : Q) : Prop := ∃ cents : Z, x == inject_Z cents / 100.


(** The environment of a billing run that starts at [t]: the [k]-th invoice
    is created [k] microseconds later. *)
Definition billing_env (t : Z) (k : nat) : draw :=
  {| draw_invoice_id := "INV-" +:+ pretty k;
     draw_now := t + Z.of_nat k; draw_created := t + Z.of_nat k |}.

End HQ.

(** ** Authentication, telemetry and reports of [hq_server.py]

    The operations of the HQ server around the billing core: the lookup of
    a client by API key, the phone-home routes, the scans, and the read-only
    reports.  An ORDER BY is a merge sort by the sort key (SQL leaves the
    order of rows with equal keys open), a SUM with COALESCE is a sum that
    starts at 0. *)
Module HQViews.
Import HQ.

(** The rows of a table, without their keys. *)
Definition rows {A} (table : gmap string A) : list A := (map_to_list table).*2.

(** [COALESCE(SUM(col), 0)] over a list of rows. *)
Definition total {A} (col : A → Q) (l : list A) : Q := foldr (λ x acc, col x + acc) 0 l.

(** *** [get_client_by_api_key] *)

(** [SELECT * FROM clients WHERE api_key = ? AND status = "active"]. *)
Definition key_holders (d : db) (key : string) : list (string * client) :=
  map_to_list
    (filter (λ kv, HQ.api_key kv.2 = key ∧ status kv.2 = "active"%string) (clients d)).

(** The row returned is the one read before [update_last_seen] ran. *)
Definition get_client_by_api_key (d : db) (key : string) (now : Z)
    : option (string * client) * db :=
  match head (key_holders d key) with
  | Some (id, row) => (Some (id, row), update_last_seen d id now)
  | None => (None, d)
  end.

(** *** [phone_home_sale] *)

(** The argument of Python's [float()]: a value it converts, or one on
    which it raises. *)
Inductive float_arg :=
  | Number (q : Q)
  | NotANumber.

Inductive sale_response :=
  | MissingApiKey                      (* 401 'Missing API key' *)
  | InvalidApiKey                      (* 401 'Invalid API key' *)
  | SaleRecorded (r : sale_receipt)    (* 200, success and the receipt *)
  | SaleFailed.                        (* 500, an uncaught exception *)

(** [api_key] is the [X-API-Key] header or else the [Authorization] header
    without its 'Bearer ' prefix; the other arguments are the fields of the
    JSON body with their defaults applied. *)
Definition phone_home_sale (d : db) (api_key : string) (now : Z)
    (deck_name format : string) (card_count : Z) (sale_value : float_arg)
    (cards_json sale_id : string) (sold : Z) : sale_response * db :=
  if negb (truthy api_key) then (MissingApiKey, d)
  else
    match get_client_by_api_key d api_key now with
    | (None, d1) => (InvalidApiKey, d1)
    | (Some (client_id, _), d1) =>
        match sale_value with
        | NotANumber => (SaleFailed, d1)
        | Number g =>
            match record_sale d1 client_id deck_name format card_count g
                    cards_json sale_id sold with
            | (Returned r, d2) => (SaleRecorded r, d2)
            | (Raised _, d2) => (SaleFailed, d2)
            end
        end
    end.

(** *** Scans

    The HQ database with its [scans] table (INTEGER PRIMARY KEY
    AUTOINCREMENT) and the [grading_disputes] table, of which only the
    status is read. *)
Record scan := {
  scan_id : Z;
  scan_client_id : string;
  card_name : string;
  set_code : string;
  rarity : string;
  scan_price : Q;
  scanned_at : Z;
  ai_confidence : Q
}.

Record store := {
  core : db;
  scans : list scan;
  seq_scans : Z;
  grading_disputes : list string
}.

Definition init_store : store :=
  {| core := init_db; scans := []; seq_scans := 0; grading_disputes := [] |}.

Definition with_core (s : store) (d : db) : store :=
  {| core := d; scans := scans s; seq_scans := seq_scans s;
     grading_disputes := grading_disputes s |}.

Definition record_scan (s : store) (client_id card_name set_code rarity : string)
    (price confidence : Q) (now : Z) : store :=
  {| core := core s;
     scans := scans s ++
       [{| scan_id := seq_scans s + 1; scan_client_id := client_id;
           card_name := card_name; set_code := set_code; rarity := rarity;
           scan_price := price; scanned_at := now; ai_confidence := confidence |}];
     seq_scans := seq_scans s + 1;
     grading_disputes := grading_disputes s |}.

(** One element of the [scans] array of a batch, with the defaults of
    [scan.get] applied. *)
Record scan_entry := {
  entry_card_name : string;
  entry_set_code : string;
  entry_rarity : string;
  entry_price : float_arg;
  entry_confidence : float_arg
}.

(** [float(price)] and [float(confidence)], in this order. *)
Definition entry_floats (e : scan_entry) : option (Q * Q) :=
  match entry_price e, entry_confidence e with
  | Number p, Number c => Some (p, c)
  | _, _ => None
  end.

Inductive scan_response :=
  | ScanMissingApiKey                  (* 401 'Missing API key' *)
  | ScanInvalidApiKey                  (* 401 'Invalid API key' *)
  | ScansRecorded (recorded : nat)     (* 200, success *)
  | ScanFailed.                        (* 500, an uncaught exception *)

(** The loop of [phone_home_batch_scans]: [record_scan] commits each scan on
    its own, so a conversion that raises leaves the scans before it in the
    table.  The [k]-th [record_scan] reads the clock as [clock k]. *)
Fixpoint record_scans (s : store) (client_id : string) (entries : list scan_entry)
    (clock : nat → Z) (k : nat) : bool * store :=
  match entries with
  | [] => (true, s)
  | e :: rest =>
      match entry_floats e with
      | None => (false, s)
      | Some (price, confidence) =>
          record_scans
            (record_scan s client_id (entry_card_name e) (entry_set_code e)
               (entry_rarity e) price confidence (clock k))
            client_id rest clock (S k)
      end
  end.

Definition phone_home_batch_scans (s : store) (api_key : string) (now : Z)
    (entries : list scan_entry) (clock : nat → Z) : scan_response * store :=
  if negb (truthy api_key) then (ScanMissingApiKey, s)
  else
    match get_client_by_api_key (core s) api_key now with
    | (None, d1) => (ScanInvalidApiKey, with_core s d1)
    | (Some (client_id, _), d1) =>
        match record_scans (with_core s d1) client_id entries clock 0 with
        | (true, s') => (ScansRecorded (length entries), s')
        | (false, s') => (ScanFailed, s')
        end
    end.

(** [phone_home_scan] reports one scan; its response carries no count. *)
Definition phone_home_scan (s : store) (api_key : string) (now : Z)
    (entry : scan_entry) (scanned : Z) : scan_response * store :=
  if negb (truthy api_key) then (ScanMissingApiKey, s)
  else
    match get_client_by_api_key (core s) api_key now with
    | (None, d1) => (ScanInvalidApiKey, with_core s d1)
    | (Some (client_id, _), d1) =>
        match record_scans (with_core s d1) client_id [entry] (λ _, scanned) 0 with
        | (true, s') => (ScansRecorded 1, s')
        | (false, s') => (ScanFailed, s')
        end
    end.

(** *** [get_subscription_revenue] *)

Definition is_active (c : client) : Prop := status c = "active"%string.
Definition is_paid (i : invoice) : Prop := inv_status i = "paid"%string.
Definition is_pending (i : invoice) : Prop := inv_status i = "pending"%string.

#[global] Instance is_active_dec c : Decision (is_active c).
Proof. unfold is_active. apply _. Defined.
#[global] Instance is_paid_dec i : Decision (is_paid i).
Proof. unfold is_paid. apply _. Defined.
#[global] Instance is_pending_dec i : Decision (is_pending i).
Proof. unfold is_pending. apply _. Defined.

(** [paid_at >= ?]; a NULL [paid_at] compares as false. *)
Definition paid_since (t : Z) (i : invoice) : Prop :=
  match inv_paid_at i with
  | Some p => (t ≤ p)%Z
  | None => False
  end.

#[global] Instance paid_since_dec t i : Decision (paid_since t i).
Proof. unfold paid_since. destruct (inv_paid_at i); apply _. Defined.

Definition active_clients (d : db) : list client := filter is_active (rows (clients d)).

(** One row of [GROUP BY subscription_tier]. *)
Record tier_row := {
  group_tier : string;
  group_count : Z;
  group_revenue : Q
}.

Definition tier_breakdown (d : db) : list tier_row :=
  (λ t, {| group_tier := t;
           group_count := count_where (λ c, subscription_tier c = t) (active_clients d);
           group_revenue :=
             total monthly_fee (filter (λ c, subscription_tier c = t) (active_clients d)) |})
  <$> remove_dups (subscription_tier <$> active_clients d).

Record revenue := {
  mrr : Q;
  month_collected : Q;
  total_collected : Q;
  pending_invoices : Z;
  pending_amount : Q;
  rev_tier_breakdown : list tier_row
}.

(** [month_start] is the reading of the clock with its day and time of day
    reset by [replace]; the calendar is not modelled, and the reading is an
    argument. *)
Definition get_subscription_revenue (d : db) (month_start : Z) : revenue :=
  let invoices := rows (subscription_invoices d) in
  {| mrr := py_round (total monthly_fee (active_clients d)) 2;
     month_collected :=
       py_round (total inv_amount
                   (filter (λ i, is_paid i ∧ paid_since month_start i) invoices)) 2;
     total_collected := py_round (total inv_amount (filter is_paid invoices)) 2;
     pending_invoices := count_where is_pending invoices;
     pending_amount := py_round (total inv_amount (filter is_pending invoices)) 2;
     rev_tier_breakdown := tier_breakdown d |}.

(** *** Listings *)

(** A row of [subscription_invoices] joined with its client. *)
Record invoice_row := {
  row_invoice_id : string;
  row_invoice : invoice;
  row_client_name : string;
  row_client_email : string
}.

(** [FROM subscription_invoices i JOIN clients c ON i.client_id = c.id]. *)
Definition join_client (d : db) (kv : string * invoice) : option invoice_row :=
  c ← clients d !! inv_client_id kv.2;
  Some {| row_invoice_id := kv.1; row_invoice := kv.2;
          row_client_name := name c; row_client_email := HQ.email c |}.

Definition by_created_at (a b : invoice_row) : Prop :=
  (inv_created_at (row_invoice a) ≤ inv_created_at (row_invoice b))%Z.

#[global] Instance by_created_at_dec a b : Decision (by_created_at a b).
Proof. unfold by_created_at. apply _. Defined.

Definition get_pending_invoices (d : db) : list invoice_row :=
  merge_sort by_created_at
    (filter (λ r, is_pending (row_invoice r))
       (omap (join_client d) (map_to_list (subscription_invoices d)))).

(** A row of [sales] joined with the name of its client. *)
Record sale_row := {
  row_sale_id : string;
  row_sale : sale;
  row_sale_client_name : string
}.

Definition join_sale (d : db) (kv : string * sale) : option sale_row :=
  c ← clients d !! sale_client_id kv.2;
  Some {| row_sale_id := kv.1; row_sale := kv.2; row_sale_client_name := name c |}.

Definition latest_first (a b : sale_row) : Prop :=
  (sold_at (row_sale b) ≤ sold_at (row_sale a))%Z.

#[global] Instance latest_first_dec a b : Decision (latest_first a b).
Proof. unfold latest_first. apply _. Defined.

(** [LIMIT ?]: a negative limit is no limit. *)
Definition sql_limit {A} (limit : Z) (l : list A) : list A :=
  if decide (limit < 0)%Z then l else take (Z.to_nat limit) l.

Definition get_recent_sales (d : db) (limit : Z) : list sale_row :=
  sql_limit limit
    (merge_sort latest_first (omap (join_sale d) (map_to_list (sales d)))).

(** A row of the leaderboard: a client with the aggregates of its sales. *)
Record leader := {
  leader_id : string;
  leader_client : client;
  sale_count : Z;
  total_volume : Q;
  total_fees : Q
}.



Definition by_volume_desc (a b : leader) : Prop :=
  Qle_bool (total_volume b) (total_volume a) = true.

#[global] Instance by_volume_desc_dec a b : Decision (by_volume_desc a b).
Proof. unfold by_volume_desc. apply _. Defined.


(** *** [get_dashboard_stats] *)


(** The optional [WHERE sold_at >= ?] of the query below. *)
Definition sold_since (since : option Z) (s : sale) : Prop :=
  match since with
  | Some t => (t ≤ sold_at s)%Z
  | None => True
  end.

#[global] Instance sold_since_dec since s : Decision (sold_since since s).
Proof. unfold sold_since. destruct since; apply _. Defined.




(** *** The HQ server with its routes as a transition system *)
Inductive store_call :=
  | Core (c : call)
  | PhoneHomeSale (api_key : string) (now : Z) (deck_name format : string)
      (card_count : Z) (sale_value : float_arg) (cards_json sale_id : string) (sold : Z)
  | PhoneHomeScan (api_key : string) (now : Z) (entry : scan_entry) (scanned : Z)
  | PhoneHomeBatchScans (api_key : string) (now : Z) (entries : list scan_entry)
      (clock : nat → Z).

Definition store_step (s : store) (c : store_call) : store :=
  match c with
  | Core c => with_core s (step (core s) c)
  | PhoneHomeSale api_key now deck_name format card_count sale_value cards_json sale_id sold =>
      with_core s
        (phone_home_sale (core s) api_key now deck_name format card_count sale_value
           cards_json sale_id sold).2
  | PhoneHomeScan api_key now entry scanned =>
      (phone_home_scan s api_key now entry scanned).2
  | PhoneHomeBatchScans api_key now entries clock =>
      (phone_home_batch_scans s api_key now entries clock).2
  end.

Definition store_run (s : store) (cs : list store_call) : store := foldl store_step s cs.

Definition store_reachable (s : store) : Prop := ∃ cs, s = store_run init_store cs.

(** *** Invariants of the reachable databases *)

Record views_inv (d : db) : Prop := {
  api_keys_unique :
    ∀ id1 id2 c1 c2, clients d !! id1 = Some c1 → clients d !! id2 = Some c2 →
      HQ.api_key c1 = HQ.api_key c2 → id1 = id2;
  all_active : ∀ id c, clients d !! id = Some c → is_active c;
  invoice_status :
    ∀ id i, subscription_invoices d !! id = Some i → is_pending i ∨ is_paid i;
  invoice_client :
    ∀ id i, subscription_invoices d !! id = Some i → is_Some (clients d !! inv_client_id i);
  invoice_amount :
    ∀ id i, subscription_invoices d !! id = Some i →
      inv_amount i = price (tier_or_starter (inv_tier i));
  fees_in_cents :
    ∀ id s, sales d !! id = Some s → whole_cents (nexus_fee s) ∧ whole_cents (client_keeps s)
}.

(** The HQ database behind the routes: the billing core is a reachable
    database, no dispute was ever filed, and the scans are numbered in the
    order of their arrival, each for a client that is registered. *)
Record store_inv (s : store) : Prop := {
  core_reachable : HQ.reachable (core s);
  no_disputes : grading_disputes s = [];
  scan_ids : scan_id <$> scans s = (λ n : nat, Z.of_nat (S n)) <$> seq 0 (length (scans s));
  scan_counter : seq_scans s = Z.of_nat (length (scans s));
  scan_clients : ∀ sc, sc ∈ scans s → is_Some (clients (core s) !! scan_client_id sc)
}.

(** Acme registers, reports a sale and two scans. *)
Definition bolt : scan_entry :=
  {| entry_card_name := "Lightning Bolt"; entry_set_code := "LEA"; entry_rarity := "common";
     entry_price := Number 2; entry_confidence := Number 1 |}.

Definition shop_calls : list store_call :=
  [Core (RegisterClient "Acme" "owner@acme.example" "starter" "" "" "" "ACME0001"
           "nxs_acme" 0 0);
   PhoneHomeSale "nxs_acme" 50 "Burn" "Modern" 60 (Number 100) "[]" "SALE-0001" 51;
   PhoneHomeScan "nxs_acme" 60 bolt 61;
   PhoneHomeBatchScans "nxs_acme" 70 [bolt] (λ k, 71 + Z.of_nat k)%Z].

Definition shop_store : store := store_run init_store shop_calls.

End HQViews.

(** ** Accounts and statistics of [portal_server.py]

    Two more handlers of the portal, which read the tables of [Portal], and
    the invariants of the accounts that the handlers of [Portal] keep. *)
Module PortalViews.
Import Portal.

(** *** [get_station_key] *)



(** *** [get_stats] *)

Record stats := {
  total_users : Z;
  total_clients : Z;
  active_today : Z;
  total_licenses : Z;
  version_distribution : gmap string Z
}.

(** [yesterday] is the value of [datetime('now', '-1 day')].  The dict of
    the version distribution has one key for each group of the GROUP BY. *)
Definition get_stats (d : db) (yesterday : Z) : stats :=
  {| total_users := Z.of_nat (length (users d));
     total_clients := Z.of_nat (length (clients d));
     active_today := count_where (λ c, (yesterday < cl_last_seen c)%Z) (clients d);
     total_licenses := count_where (λ l, lic_is_active l = true) (licenses d);
     version_distribution :=
       list_to_map
         ((λ v, (v, count_where (λ c, cl_version c = v) (clients d)))
          <$> remove_dups (cl_version <$> clients d)) |}.

(** *** Invariants of the accounts *)

(** Users, licences and activations: the UNIQUE columns are unique, the
    licences are the ones [register] issued, one for each user and in the
    same order, and every activation belongs to a licence. *)
Record account_inv (d : db) : Prop := {
  usr_ids_unique : NoDup (usr_id <$> users d);
  usr_ids_issued : ∀ u, u ∈ users d → (usr_id u ≤ seq_users d)%Z;
  station_keys_unique : NoDup (usr_station_api_key <$> users d);
  lic_keys_unique : NoDup (lic_license_key <$> licenses d);
  lic_standard :
    ∀ l, l ∈ licenses d →
      lic_is_active l = true ∧ lic_expires_at l = None ∧ lic_max_activations l = 3%Z;
  lic_users : lic_user_id <$> licenses d = usr_id <$> users d;
  cl_has_license : ∀ c, c ∈ clients d → ∃ l, l ∈ licenses d ∧ lic_id l = cl_license_id c
}.

(** The two kinds of entries of the transaction log. *)
Definition is_credit (t : wallet_transaction) : Prop :=
  tx_type t = "credit"%string ∧ 0 < tx_amount t ∧ tx_status t = "completed"%string.

Definition is_withdrawal_request (t : wallet_transaction) : Prop :=
  tx_type t = "withdrawal"%string ∧ tx_amount t < 0 ∧ tx_status t = "pending"%string
  ∧ tx_order_id t = None.

(** Wallets and their log: the user of every licence has a wallet, the
    columns no handler writes keep their default, a balance is covered by
    what the wallet earned, and the log holds credits and requests for
    withdrawal, numbered in the order of their arrival. *)
Record wallet_inv (d : db) : Prop := {
  lic_has_wallet : ∀ l, l ∈ licenses d → lic_user_id l ∈ wal_user_id <$> wallets d;
  never_written :
    ∀ w, w ∈ wallets d → wal_total_withdrawn w = 0 ∧ wal_pending_balance w = 0;
  earned_covers_balance : ∀ w, w ∈ wallets d → wal_balance w <= wal_total_earned w;
  tx_kinds : ∀ t, t ∈ wallet_transactions d → is_credit t ∨ is_withdrawal_request t;
  tx_ids :
    tx_id <$> wallet_transactions d
    = (λ n : nat, Z.of_nat (S n)) <$> seq 0 (length (wallet_transactions d));
  tx_counter : seq_wallet_transactions d = Z.of_nat (length (wallet_transactions d))
}.

End PortalViews.

(** * Properties *)

(** ** Facts about the table helpers *)

Section Tables.
Context {A : Type} (P : A → Prop) `{!∀ x, Decision (P x)}.
Implicit Types rows : list A.

Lemma fetchone_Some rows x : fetchone P rows = Some x → x ∈ rows ∧ P x.
Proof.
  unfold fetchone. intros Hhd.
  assert (Hx : x ∈ filter P rows).
  { destruct (filter P rows) as [|y ys]; simplify_eq/=. left. }
  apply list_elem_of_filter in Hx. tauto.
Qed.

Lemma fetchone_None rows x : fetchone P rows = None → x ∈ rows → ¬ P x.
Proof.
  unfold fetchone. intros Hhd Hx HP.
  assert (Hin : x ∈ filter P rows) by (apply list_elem_of_filter; done).
  destruct (filter P rows); [by apply not_elem_of_nil in Hin | done].
Qed.

Lemma elem_of_update_where f rows y :
  y ∈ update_where P f rows ↔ ∃ x, x ∈ rows ∧ (P x ∧ y = f x ∨ ¬ P x ∧ y = x).
Proof.
  unfold update_where. rewrite list_elem_of_fmap. split.
  - intros (x & -> & Hx). exists x. split; [done|]. case_decide; tauto.
  - intros (x & Hx & Hy). exists x. split; [|done].
    case_decide; destruct Hy as [[? ->]|[? ->]]; done.
Qed.

Lemma update_where_fmap_stable {B} (g : A → B) f rows :
  (∀ x, g (f x) = g x) → g <$> update_where P f rows = g <$> rows.
Proof.
  intros Hg. unfold update_where. rewrite <- list_fmap_compose.
  apply list_fmap_ext. intros i x _. simpl. case_decide; auto.
Qed.

Lemma update_where_filter_stable (R : A → Prop) `{!∀ x, Decision (R x)} f rows :
  (∀ x, R (f x) ↔ R x) →
  filter R (update_where P f rows) = update_where P f (filter R rows).
Proof.
  intros HR. induction rows as [|x rows IH]; [done|].
  unfold update_where in *. rewrite fmap_cons.
  assert (Hx : R (if decide (P x) then f x else x) ↔ R x).
  { destruct (decide (P x)); [apply HR | done]. }
  destruct (decide (R x)) as [Hr|Hr].
  - rewrite (filter_cons_True R x) by done.
    rewrite filter_cons_True by (by apply Hx).
    by rewrite fmap_cons, IH.
  - rewrite (filter_cons_False R x) by done.
    rewrite filter_cons_False by (by rewrite Hx).
    done.
Qed.

Lemma count_where_update_stable (R : A → Prop) `{!∀ x, Decision (R x)} f rows :
  (∀ x, R (f x) ↔ R x) →
  count_where R (update_where P f rows) = count_where R rows.
Proof.
  intros HR. unfold count_where. rewrite update_where_filter_stable by done.
  unfold update_where. by rewrite length_fmap.
Qed.


Lemma count_where_app rows1 rows2 :
  count_where P (rows1 ++ rows2) = (count_where P rows1 + count_where P rows2)%Z.
Proof. unfold count_where. rewrite filter_app, length_app. lia. Qed.

Lemma count_where_none rows : (∀ x, x ∈ rows → ¬ P x) → count_where P rows = 0%Z.
Proof.
  intros Hnone. unfold count_where.
  destruct (filter P rows) as [|x xs] eqn:Hf; [done|].
  assert (Hx : x ∈ filter P rows) by (rewrite Hf; left).
  apply list_elem_of_filter in Hx as [? ?]. by destruct (Hnone x).
Qed.

Lemma NoDup_fmap_elem_inj {B} (g : A → B) rows x y :
  NoDup (g <$> rows) → x ∈ rows → y ∈ rows → g x = g y → x = y.
Proof.
  induction rows as [|z rows IH]; intros Hnd Hx Hy Hg.
  - by apply not_elem_of_nil in Hx.
  - rewrite fmap_cons in Hnd. apply NoDup_cons in Hnd as [Hz Hnd].
    apply elem_of_cons in Hx as [->|Hx], Hy as [->|Hy]; auto.
    + destruct Hz. rewrite Hg. by apply list_elem_of_fmap_2.
    + destruct Hz. rewrite <- Hg. by apply list_elem_of_fmap_2.
Qed.
End Tables.

(** ** The portal server *)

Section PortalFacts.
Import Portal.

Lemma require_license_elem d key now l :
  require_license d key now = inr l → l ∈ licenses d.
Proof.
  unfold require_license. destruct (negb (truthy key)); [done|].
  destruct (fetchone _ (licenses d)) as [l'|] eqn:Hl; [|done].
  apply fetchone_Some in Hl as [Hl _].
  destruct (lic_expires_at l'); [case_decide|]; naive_solver.
Qed.

Lemma init_db_activation_inv : activation_inv init_db.
Proof.
  split; simpl; try (intros ? []%not_elem_of_nil). constructor.
Qed.

Lemma init_db_ledger_inv : ledger_inv init_db.
Proof.
  split; simpl; try (intros ? []%not_elem_of_nil); constructor.
Qed.

Lemma activations_app d cs seq lid :
  activations (Portal.with_clients d (clients d ++ cs) seq) lid
  = (activations d lid + count_where (λ c, cl_license_id c = lid) cs)%Z.
Proof. unfold activations. simpl. apply count_where_app. Qed.

Lemma validate_license_activation_inv d l v :
  activation_inv d → l ∈ licenses d → activation_inv (validate_license d l v).2.
Proof.
  intros [Hnd Hlic Hcl Hlim] Hl. unfold validate_license.
  destruct (existing d (lic_id l) (machine_id v)) as [e|] eqn:He; simpl.
  - (* the machine is known: its row is rewritten in place *)
    split; simpl; auto.
    + intros c (x & Hx & [[_ ->]|[_ ->]])%elem_of_update_where; simpl; auto.
    + intros l' Hl'. unfold activations; simpl.
      rewrite count_where_update_stable by done. by apply Hlim.
  - case_bool_decide as Hfull; simpl; [by split|].
    split; simpl; auto.
    + intros c [Hc| ->%list_elem_of_singleton]%elem_of_app; simpl; auto.
    + intros l' Hl'. rewrite activations_app. unfold count_where.
      rewrite filter_cons, filter_nil; simpl.
      specialize (Hlim l' Hl'). case_decide as Heq; simpl; [|lia].
      assert (l' = l) as -> by (by apply (NoDup_fmap_elem_inj lic_id (licenses d))).
      lia.
Qed.

Lemma register_activation_inv d email password shop key lkey :
  activation_inv d → activation_inv (register d email password shop key lkey).2.
Proof.
  intros [Hnd Hlic Hcl Hlim]. unfold register.
  destruct (_ || _); [by split|]. destruct (_ || _); [by split|].
  split; simpl.
  - rewrite fmap_app. apply NoDup_app. split_and!; [done| |apply NoDup_singleton].
    intros i (l & -> & Hl)%list_elem_of_fmap Heq%list_elem_of_singleton.
    specialize (Hlic l Hl). simpl in *. lia.
  - intros l [Hl| ->%list_elem_of_singleton]%elem_of_app; simpl; [|lia].
    specialize (Hlic l Hl). lia.
  - intros c Hc. specialize (Hcl c Hc). lia.
  - intros l [Hl| ->%list_elem_of_singleton]%elem_of_app.
    + by apply Hlim.
    + unfold activations; simpl. rewrite count_where_none; [lia|].
      intros c Hc Heq. specialize (Hcl c Hc). lia.
Qed.

Lemma with_wallets_activation_inv d ws seq txs seq_tx :
  activation_inv d → activation_inv (with_wallets d ws seq txs seq_tx).
Proof. intros [? ? ? ?]. by split. Qed.

Lemma with_clients_ledger_inv d cs seq :
  ledger_inv d → ledger_inv (Portal.with_clients d cs seq).
Proof. intros [? ? ? ? ? ?]. by split. Qed.

Lemma signed_sum_app txs1 txs2 :
  signed_sum (txs1 ++ txs2) == signed_sum txs1 + signed_sum txs2.
Proof.
  unfold signed_sum. induction txs1 as [|t txs1 IH]; simpl; [ring|].
  rewrite IH. ring.
Qed.

Lemma transactions_of_snoc d ws seq t seq_tx wid :
  transactions_of (with_wallets d ws seq (wallet_transactions d ++ [t]) seq_tx) wid
  = transactions_of d wid ++ (if decide (tx_wallet_id t = wid) then [t] else []).
Proof.
  unfold transactions_of; simpl. by rewrite filter_app.
Qed.

Lemma transactions_of_fresh d wid :
  ledger_inv d → (seq_wallets d < wid)%Z → transactions_of d wid = [].
Proof.
  intros Hinv Hwid. unfold transactions_of.
  destruct (filter _ _) as [|t ts] eqn:Hf; [done|].
  assert (Ht : t ∈ filter (λ t, tx_wallet_id t = wid) (wallet_transactions d))
    by (rewrite Hf; left).
  apply list_elem_of_filter in Ht as [Heq Ht].
  apply (tx_wallet_issued d Hinv) in Ht. lia.
Qed.

(** A wallet with the column defaults for a user who has none keeps the
    ledger consistent: [register] and [get_wallet] both insert one. *)
Lemma new_wallet_ledger_inv d uid payout :
  ledger_inv d → (∀ w, w ∈ wallets d → wal_user_id w ≠ uid) →
  ledger_inv
    (with_wallets d
       (wallets d ++
          [{| wal_id := seq_wallets d + 1; wal_user_id := uid;
              wal_balance := 0; wal_pending_balance := 0;
              wal_total_earned := 0; wal_total_withdrawn := 0;
              wal_payout_email := payout; wal_payout_method := "paypal" |}])
       (seq_wallets d + 1) (wallet_transactions d) (seq_wallet_transactions d)).
Proof.
  intros Hinv Hfree. pose proof Hinv as [Hu Hi Hseq Htx Hsum Hpos].
  split; simpl.
  - rewrite fmap_app. apply NoDup_app. split_and!; [done| |apply NoDup_singleton].
    intros i (w & -> & Hw)%list_elem_of_fmap Heq%list_elem_of_singleton.
    by apply (Hfree w).
  - rewrite fmap_app. apply NoDup_app. split_and!; [done| |apply NoDup_singleton].
    intros i (w & -> & Hw)%list_elem_of_fmap Heq%list_elem_of_singleton.
    specialize (Hseq w Hw). simpl in *. lia.
  - intros w [Hw| ->%list_elem_of_singleton]%elem_of_app; simpl; [|lia].
    specialize (Hseq w Hw). lia.
  - intros t Ht. specialize (Htx t Ht). lia.
  - intros w [Hw| ->%list_elem_of_singleton]%elem_of_app.
    + by apply Hsum.
    + simpl. change (transactions_of _ ?i) with (transactions_of d i).
      rewrite transactions_of_fresh by (done || lia). reflexivity.
  - intros w [Hw| ->%list_elem_of_singleton]%elem_of_app; [by apply Hpos|]. simpl. lra.
Qed.

Lemma register_ledger_inv d email password shop key lkey :
  ledger_inv d → ledger_inv (register d email password shop key lkey).2.
Proof.
  intros Hinv. unfold register.
  destruct (_ || _); [done|].
  destruct (_ || _) eqn:Hdup; [done|]. simpl.
  apply orb_false_iff in Hdup as [_ Hw]. apply bool_decide_eq_false in Hw.
  pose proof (new_wallet_ledger_inv d (seq_users d + 1) (Some email) Hinv) as Hnew.
  destruct Hnew as [? ? ? ? ? ?].
  - intros w Hw' Heq. apply Hw, Exists_exists. eauto.
  - by split.
Qed.

Lemma get_wallet_ledger_inv d l : ledger_inv d → ledger_inv (get_wallet d l).2.
Proof.
  intros Hinv. unfold get_wallet.
  destruct (license_user_id d l) as [uid|]; [|done].
  destruct (wallet_of_user d uid) as [w|] eqn:Hw; [done|].
  assert (ledger_inv
    (with_wallets d
       (wallets d ++
          [{| wal_id := seq_wallets d + 1; wal_user_id := uid;
              wal_balance := 0; wal_pending_balance := 0;
              wal_total_earned := 0; wal_total_withdrawn := 0;
              wal_payout_email := None; wal_payout_method := "paypal" |}])
       (seq_wallets d + 1) (wallet_transactions d) (seq_wallet_transactions d))).
  { apply new_wallet_ledger_inv; [done|]. intros w Hin Heq.
    by apply (fetchone_None _ _ w Hw). }
  clear Hw. destruct (wallet_of_user _ uid); exact H.
Qed.

Lemma update_payout_settings_ledger_inv d l email method :
  ledger_inv d → ledger_inv (update_payout_settings d l email method).2.
Proof.
  intros [Hu Hi Hseq Htx Hsum Hpos]. unfold update_payout_settings.
  destruct (license_user_id d l) as [uid|]; [|by split].
  split; simpl.
  - by rewrite update_where_fmap_stable.
  - by rewrite update_where_fmap_stable.
  - intros w (x & Hx & [[_ ->]|[_ ->]])%elem_of_update_where; simpl; auto.
  - done.
  - intros w (x & Hx & [[_ ->]|[_ ->]])%elem_of_update_where; simpl; by apply Hsum.
  - intros w (x & Hx & [[_ ->]|[_ ->]])%elem_of_update_where; simpl; by apply Hpos.
Qed.

Lemma Qle_bool_false x y : Qle_bool x y = false ↔ y < x.
Proof.
  rewrite <- not_true_iff_false, Qle_bool_iff. split; [apply Qnot_le_lt | apply Qlt_not_le].
Qed.


Lemma Qlt_bool_false x y : Qlt_bool x y = false ↔ y <= x.
Proof. unfold Qlt_bool. rewrite negb_false_iff. apply Qle_bool_iff. Qed.

(** What a withdrawal that passes both guards does to the database. *)
Lemma request_withdrawal_success d l uid w A :
  license_user_id d l = Some uid → wallet_of_user d uid = Some w →
  0 < A → A <= wal_balance w →
  request_withdrawal d l A =
    (Withdrawn (wal_balance w - A) A,
     with_wallets d
       (update_where (λ x, wal_user_id x = uid) (set_balance (wal_balance w - A)) (wallets d))
       (seq_wallets d)
       (wallet_transactions d ++
          [{| tx_id := seq_wallet_transactions d + 1; tx_wallet_id := wal_id w;
              tx_type := "withdrawal"; tx_amount := - A;
              tx_description := "Withdrawal request"; tx_order_id := None;
              tx_status := "pending" |}])
       (seq_wallet_transactions d + 1)).
Proof.
  intros Hu Hw Hpos Hle. unfold request_withdrawal.
  apply Qle_bool_false in Hpos. apply Qlt_bool_false in Hle.
  by rewrite Hpos, Hu, Hw, Hle.
Qed.

(** Every other outcome of a withdrawal leaves the database as it was. *)
Lemma request_withdrawal_cases d l A :
  (request_withdrawal d l A).2 = d ∨
  ∃ uid w, license_user_id d l = Some uid ∧ wallet_of_user d uid = Some w ∧
    0 < A ∧ A <= wal_balance w.
Proof.
  unfold request_withdrawal.
  destruct (Qle_bool A 0) eqn:Hpos; [by left|]. apply Qle_bool_false in Hpos.
  destruct (license_user_id d l) as [uid|] eqn:Hu; [|by left].
  destruct (wallet_of_user d uid) as [w|] eqn:Hw; [|by left].
  destruct (Qlt_bool (wal_balance w) A) eqn:Hle; [by left|].
  apply Qlt_bool_false in Hle. right. by exists uid, w.
Qed.

(** What a credit that passes its guards does to the database. *)
Lemma credit_wallet_success d key u w A order_id description :
  truthy key = true → 0 < A →
  fetchone (λ u, usr_station_api_key u = key) (users d) = Some u →
  wallet_of_user d (usr_id u) = Some w →
  credit_wallet d key A order_id description =
    (Credited (wal_balance w + A),
     with_wallets d
       (update_where (λ x, wal_id x = wal_id w)
          (set_balance_earned (wal_balance w + A) (wal_total_earned w + A)) (wallets d))
       (seq_wallets d)
       (wallet_transactions d ++
          [{| tx_id := seq_wallet_transactions d + 1; tx_wallet_id := wal_id w;
              tx_type := "credit"; tx_amount := A; tx_description := description;
              tx_order_id := order_id; tx_status := "completed" |}])
       (seq_wallet_transactions d + 1)).
Proof.
  intros Hkey Hpos Hu Hw. unfold credit_wallet.
  apply Qle_bool_false in Hpos. by rewrite Hkey, Hpos, Hu, Hw.
Qed.

Lemma credit_wallet_cases d key A order_id description :
  (credit_wallet d key A order_id description).2 = d ∨
  ∃ u w, truthy key = true ∧ 0 < A ∧
    fetchone (λ u, usr_station_api_key u = key) (users d) = Some u ∧
    wallet_of_user d (usr_id u) = Some w.
Proof.
  unfold credit_wallet.
  destruct (truthy key) eqn:Hkey; [|by left]. simpl.
  destruct (Qle_bool A 0) eqn:Hpos; [by left|]. apply Qle_bool_false in Hpos.
  destruct (fetchone _ (users d)) as [u|] eqn:Hu; [|by left].
  destruct (wallet_of_user d (usr_id u)) as [w|] eqn:Hw; [|by left].
  right. by exists u, w.
Qed.



(** A change of one wallet's balance by [delta], logged as a transaction of
    amount [delta], keeps the ledger consistent. *)
Lemma post_ledger_inv d (P : wallet → Prop) `{!∀ x, Decision (P x)} f w t delta :
  ledger_inv d → w ∈ wallets d →
  (∀ x, x ∈ wallets d → P x ↔ x = w) →
  wal_id (f w) = wal_id w → wal_user_id (f w) = wal_user_id w →
  wal_balance (f w) == wal_balance w + delta → 0 <= wal_balance w + delta →
  tx_wallet_id t = wal_id w → tx_amount t == delta →
  ledger_inv
    (with_wallets d (update_where P f (wallets d)) (seq_wallets d)
       (wallet_transactions d ++ [t]) (seq_wallet_transactions d + 1)).
Proof.
  intros Hinv Hw HP Hid Huid Hbal Hpos Htw Hta.
  pose proof Hinv as [Hu Hi Hseq Htx Hsum Hnn].
  assert (Hfmap : ∀ {B} (g : wallet → B), g (f w) = g w →
            g <$> update_where P f (wallets d) = g <$> wallets d).
  { intros B g Hg. unfold update_where. rewrite <- list_fmap_compose.
    apply list_fmap_ext. intros i x Hx%list_elem_of_lookup_2. simpl.
    case_decide as Hp; [|done]. apply HP in Hp as ->; done. }
  split; simpl.
  - by rewrite Hfmap.
  - by rewrite Hfmap.
  - intros y (x & Hx & [[Hp ->]|[_ ->]])%elem_of_update_where; [|by apply Hseq].
    apply HP in Hp as ->; [|done]. rewrite Hid. by apply Hseq.
  - intros y [Hy| ->%list_elem_of_singleton]%elem_of_app; [by apply Htx|].
    rewrite Htw. by apply Hseq.
  - intros y (x & Hx & [[Hp ->]|[Hp ->]])%elem_of_update_where;
      rewrite transactions_of_snoc, signed_sum_app.
    + apply HP in Hp as ->; [|done]. rewrite Hid, Hbal, decide_True by done.
      rewrite (Hsum w Hw). simpl. rewrite Hta. ring.
    + rewrite decide_False.
      * rewrite (Hsum x Hx). simpl. ring.
      * rewrite Htw. intros Heq. apply Hp, HP; [done|].
        by apply (NoDup_fmap_elem_inj wal_id (wallets d)).
  - intros y (x & Hx & [[Hp ->]|[_ ->]])%elem_of_update_where; [|by apply Hnn].
    apply HP in Hp as ->; [|done]. by rewrite Hbal.
Qed.

Lemma request_withdrawal_ledger_inv d l A :
  ledger_inv d → ledger_inv (request_withdrawal d l A).2.
Proof.
  intros Hinv.
  destruct (request_withdrawal_cases d l A) as [->|(uid & w & Hu & Hw & Hpos & Hle)]; [done|].
  rewrite (request_withdrawal_success d l uid w A) by done. simpl.
  apply fetchone_Some in Hw as [Hw Hwu].
  apply (post_ledger_inv d _ _ w _ (- A)); simpl; try done; try lra.
  intros x Hx. split; [|by intros ->].
  intros Hxu. apply (NoDup_fmap_elem_inj wal_user_id (wallets d)); [apply Hinv|done..|congruence].
Qed.

Lemma credit_wallet_ledger_inv d key A order_id description :
  ledger_inv d → ledger_inv (credit_wallet d key A order_id description).2.
Proof.
  intros Hinv.
  destruct (credit_wallet_cases d key A order_id description)
    as [->|(u & w & Hkey & Hpos & Hu & Hw)]; [done|].
  rewrite (credit_wallet_success d key u w A) by done. simpl.
  apply fetchone_Some in Hw as [Hw Hwu].
  pose proof (balance_nonneg d Hinv w Hw).
  apply (post_ledger_inv d _ _ w _ A); simpl; try done; try lra.
  intros x Hx. split; [|by intros ->].
  intros Hxu. by apply (NoDup_fmap_elem_inj wal_id (wallets d)); [apply Hinv|..].
Qed.

(** *** Reachable databases *)

(** Runs the decorator of a licensed route: a refused request leaves the
    database as it was, an accepted one hands the licence [l] on. *)
Ltac licensed_route l Hl :=
  unfold licensed;
  match goal with
  | |- context [require_license ?d ?key ?now] =>
      destruct (require_license d key now) as [|l] eqn:Hl; [done|]
  end.

Lemma step_activation_inv env d c : activation_inv d → activation_inv (step env d c).2.
Proof.
  intros Hinv. destruct c; simpl.
  - by apply register_activation_inv.
  - licensed_route l Hl.
    apply validate_license_activation_inv; [done|]. by eapply require_license_elem.
  - licensed_route l Hl.
    unfold get_wallet. repeat case_match; simplify_eq/=;
      auto using with_wallets_activation_inv.
  - licensed_route l Hl.
    unfold update_payout_settings. repeat case_match; simplify_eq/=;
      auto using with_wallets_activation_inv.
  - licensed_route l Hl.
    unfold request_withdrawal. repeat case_match; simplify_eq/=;
      auto using with_wallets_activation_inv.
  - destruct (require_admin env _); [|done].
    unfold credit_wallet. repeat case_match; simplify_eq/=;
      auto using with_wallets_activation_inv.
  - licensed_route l Hl.
    unfold regenerate_station_key. destruct Hinv.
    repeat case_match; simplify_eq/=; by split.
Qed.

Lemma step_ledger_inv env d c : ledger_inv d → ledger_inv (step env d c).2.
Proof.
  intros Hinv. destruct c; simpl.
  - by apply register_ledger_inv.
  - licensed_route l Hl.
    unfold validate_license. repeat case_match; simplify_eq/=;
      auto using with_clients_ledger_inv.
  - licensed_route l Hl. by apply get_wallet_ledger_inv.
  - licensed_route l Hl. by apply update_payout_settings_ledger_inv.
  - licensed_route l Hl. by apply request_withdrawal_ledger_inv.
  - destruct (require_admin env _); [|done]. by apply credit_wallet_ledger_inv.
  - licensed_route l Hl.
    unfold regenerate_station_key. destruct Hinv.
    repeat case_match; simplify_eq/=; by split.
Qed.





(** *** Activation limit *)



(** *** Withdrawals *)








(** *** The ledger *)



(** Credit 50.00 for order O1, then a withdrawal of 30.00: the balance is
    20.00, total_earned 50.00, and the log holds +50.00 and -30.00. *)
Example ledger_after_credit_and_withdrawal :
  ∃ w, wallets ledger_db = [w]
    ∧ wal_id w = 1%Z ∧ wal_balance w == 20 ∧ wal_total_earned w == 50
    ∧ wal_total_withdrawn w == 0
    ∧ tx_amount <$> transactions_of ledger_db 1 = [50; - 30]
    ∧ tx_type <$> transactions_of ledger_db 1 = ["credit"; "withdrawal"]%string
    ∧ tx_status <$> transactions_of ledger_db 1 = ["completed"; "pending"]%string.
Proof. eexists. split; [reflexivity|]. split_and!; by vm_compute. Qed.

End PortalFacts.

(** ** The HQ server *)

Section HQFacts.
Import HQ.

(** *** Rounding *)

Lemma round_half_even_whole x n : x == inject_Z n → round_half_even x = n.
Proof.
  intros Hx. unfold round_half_even.
  assert (Hf : Qfloor x = n) by (rewrite Hx; apply Qfloor_Z).
  rewrite Hf.
  assert (Hlt : Qcompare (x - inject_Z n) (1 # 2) = Lt).
  { apply Qlt_alt. assert (Hz : x - inject_Z n == 0) by (rewrite Hx; ring).
    by rewrite Hz. }
  by rewrite Hlt.
Qed.

Lemma py_round_whole_cents x : whole_cents x → py_round x 2 == x.
Proof.
  intros [n Hn]. unfold py_round. change (10 ^ Z.of_nat 2)%Z with 100%Z.
  rewrite (round_half_even_whole _ n); [by rewrite Hn|].
  rewrite Hn. field.
Qed.

Lemma py_round_is_whole_cents x : whole_cents (py_round x 2).
Proof. eexists. unfold py_round. change (10 ^ Z.of_nat 2)%Z with 100%Z. reflexivity. Qed.


Example round_half_even_ties :
  round_half_even (5 # 2) = 2%Z ∧ round_half_even (7 # 2) = 4%Z
  ∧ round_half_even (- (5 # 2)) = (-2)%Z ∧ round_half_even (23 # 2) = 12%Z.
Proof. by vm_compute. Qed.

(** *** Commission *)

Example acme_sale_100 :
  ∃ r d', record_sale acme_db "ACME0001" "Burn" "Modern" 60 100 "[]" "SALE-0001" 5
          = (Returned r, d')
    ∧ r_nexus_fee r == 8 ∧ r_client_keeps r == 92 ∧ r_commission_rate r == 8.
Proof. eexists _, _. split; [by vm_compute|]. by vm_compute. Qed.




(** The same sale computed on doubles: the values are the same, so the
    failure is not an effect of taking amounts as exact rationals. *)
Example record_sale_rounding_binary64 :
  Binary64.fee_split Binary64.d0_125 Binary64.d8 = Some (Binary64.d0_01, Binary64.d0_12)
  ∧ PrimFloat.add Binary64.d0_01 Binary64.d0_12 = Binary64.d0_13
  ∧ Binary64.py_round Binary64.d0_125 2 = Some Binary64.d0_12
  ∧ PrimFloat.eqb Binary64.d0_13 Binary64.d0_12 = false
  ∧ PrimFloat.eqb Binary64.d0_13 Binary64.d0_125 = false.
Proof. split_and!; by vm_compute. Qed.






(** *** Facts about the loop of [generate_monthly_invoices] *)



Lemma create_invoice_pricing_inv d client_id tier invoice_id now created :
  pricing_inv d → pricing_inv (create_invoice d client_id tier invoice_id now created).2.
Proof.
  intros Hinv. unfold create_invoice.
  destruct (clients d !! client_id) as [row|]; [|done].
  case_bool_decide; simpl; [done|]. unfold pricing_inv; simpl.
  intros id c [[-> (x & Hx & ->)]|[_ Hc]]%lookup_alter_Some; [|by eapply Hinv].
  by apply (Hinv _ _ Hx).
Qed.

Lemma create_invoices_pricing_inv d ids env k acc :
  pricing_inv d → pricing_inv (create_invoices d ids env k acc).2.
Proof.
  revert d k acc. induction ids as [|id ids IH]; intros d k acc Hinv; simpl; [done|].
  pose proof (create_invoice_pricing_inv d id None (draw_invoice_id (env k))
                (draw_now (env k)) (draw_created (env k)) Hinv) as Hs.
  destruct (create_invoice d id None _ _ _) as [[[r|]|] d1]; simpl in *; auto.
Qed.

(** *** Recorded sales stay as they are *)





Example acme_second_sale_after_tier_change :
  ∃ s, sales (run acme_db
                [RecordSale "ACME0001" "Burn" "Modern" 60 100 "[]" "SALE-0001" 5;
                 ChangeClientTier "ACME0001" "enterprise";
                 RecordSale "ACME0001" "Storm" "Legacy" 75 100 "[]" "SALE-0002" 9])
         !! "SALE-0002"%string = Some s
    ∧ nexus_fee s == 4 ∧ client_keeps s == 96.
Proof. eexists. split; [by vm_compute|]. split; by vm_compute. Qed.

(** *** Tier pricing *)

Lemma tier_lookup_pricing tier info :
  TIERS !! tier = Some info →
  get_commission_rate tier = commission info ∧ get_monthly_fee tier = price info.
Proof.
  intros Hinfo. unfold get_commission_rate, get_monthly_fee, tier_or_starter.
  by rewrite Hinfo.
Qed.

Lemma tier_unknown_pricing tier :
  TIERS !! tier = None → get_commission_rate tier = 8 ∧ get_monthly_fee tier = 29.
Proof.
  intros Hinfo. unfold get_commission_rate, get_monthly_fee, tier_or_starter.
  by rewrite Hinfo.
Qed.

Lemma step_pricing_inv d c : pricing_inv d → pricing_inv (step d c).
Proof.
  intros Hinv. destruct c; simpl.
  - unfold register_client. case_match; simpl; [done|]. unfold pricing_inv; simpl.
    intros id c [[-> <-]|[_ Hc]]%lookup_insert_Some; [by split|by eapply Hinv].
  - unfold update_last_seen, pricing_inv; simpl.
    intros id c [[-> (x & Hx & ->)]|[_ Hc]]%lookup_alter_Some; [|by eapply Hinv].
    by apply (Hinv _ _ Hx).
  - unfold record_sale. by case_bool_decide.
  - by apply create_invoice_pricing_inv.
  - done.
  - unfold change_client_tier. destruct (TIERS !! new_tier) as [info|] eqn:Hinfo; [|done].
    unfold pricing_inv; simpl.
    intros id c [[-> (x & Hx & ->)]|[_ Hc]]%lookup_alter_Some; [|by eapply Hinv].
    apply tier_lookup_pricing in Hinfo as [? ?]. by split.
  - by apply create_invoices_pricing_inv.
Qed.

Lemma reachable_pricing_inv d : reachable d → pricing_inv d.
Proof.
  intros [cs ->]. assert (Hinit : pricing_inv init_db) by (by intros id c ?).
  revert Hinit. generalize init_db. induction cs as [|c cs IH]; intros d Hinv; [done|].
  apply IH. by apply step_pricing_inv.
Qed.

Lemma midas_db_reachable : reachable midas_db.
Proof. by exists midas_calls. Qed.

(** C7 as stated fails: [register_client] accepts a tier name that the tier
    table does not have and stores it, with the starter pricing; the table
    has no commission and price for the tier of such a client. *)
Lemma register_unknown_tier_counterexample :
  reachable midas_db
  ∧ ∃ c, clients midas_db !! "MIDAS001"%string = Some c
      ∧ subscription_tier c = "gold"%string
      ∧ commission_rate c = 8 ∧ monthly_fee c = 29
      ∧ TIERS !! subscription_tier c = None
      ∧ ¬ ∃ info, TIERS !! subscription_tier c = Some info
                  ∧ commission_rate c = commission info ∧ monthly_fee c = price info.
Proof.
  split; [apply midas_db_reachable|]. eexists. split; [by vm_compute|].
  split_and!; try by vm_compute.
  intros (info & Hinfo & _). by vm_compute in Hinfo.
Qed.

(** C7, amended. For every client of a reachable database, commission_rate
    and monthly_fee are the values [get_commission_rate] and
    [get_monthly_fee] give for the client's tier: the values of the tier
    table when the table has the tier, and the starter values otherwise.
    [register_client] sets tier, rate and fee together, for any tier name;
    [change_client_tier] sets the three together from the tier table and
    rejects a tier name the table does not have, changing nothing. *)
Theorem pricing_follows_tier d :
  reachable d →
  (∀ id c, clients d !! id = Some c →
     commission_rate c = get_commission_rate (subscription_tier c)
     ∧ monthly_fee c = get_monthly_fee (subscription_tier c)
     ∧ (∀ info, TIERS !! subscription_tier c = Some info →
          commission_rate c = commission info ∧ monthly_fee c = price info)
     ∧ (TIERS !! subscription_tier c = None → commission_rate c = 8 ∧ monthly_fee c = 29))
  ∧ (∀ name email tier location phone notes id key created last rate fee d',
       register_client d name email tier location phone notes id key created last
         = (RegisterSuccess id key tier rate fee, d') →
       ∃ c, clients d' !! id = Some c ∧ subscription_tier c = tier
            ∧ commission_rate c = get_commission_rate tier
            ∧ monthly_fee c = get_monthly_fee tier
            ∧ rate = get_commission_rate tier ∧ fee = get_monthly_fee tier)
  ∧ (∀ id new_tier, TIERS !! new_tier = None →
       change_client_tier d id new_tier = (InvalidTier, d))
  ∧ (∀ id new_tier info c, TIERS !! new_tier = Some info → clients d !! id = Some c →
       ∃ d' c', change_client_tier d id new_tier
                  = (TierChanged new_tier (commission info) (price info), d')
         ∧ clients d' !! id = Some c'
         ∧ subscription_tier c' = new_tier
         ∧ commission_rate c' = commission info ∧ monthly_fee c' = price info).
Proof.
  intros Hreach. pose proof (reachable_pricing_inv d Hreach) as Hinv. split_and!.
  - intros id c Hc. destruct (Hinv id c Hc) as [Hrate Hfee]. split_and!; try done.
    + intros info [? ?]%tier_lookup_pricing. split; congruence.
    + intros [? ?]%tier_unknown_pricing. split; congruence.
  - intros name email tier location phone notes id key created last rate fee d'.
    unfold register_client. case_match; [done|]. intros [= <- <- <-]. simpl.
    eexists. rewrite lookup_insert_eq. by split_and!.
  - intros id new_tier Hinfo. unfold change_client_tier. by rewrite Hinfo.
  - intros id new_tier info c Hinfo Hc. unfold change_client_tier. rewrite Hinfo.
    eexists _, _. split; [done|]. simpl. rewrite lookup_alter_eq, Hc. by split_and!.
Qed.

Lemma pricing_follows_tier_witness :
  ∃ c, clients midas_db !! "MIDAS001"%string = Some c
    ∧ commission_rate c = get_commission_rate (subscription_tier c)
    ∧ monthly_fee c = get_monthly_fee (subscription_tier c)
    ∧ change_client_tier midas_db "MIDAS001" "platinum" = (InvalidTier, midas_db)
    ∧ (change_client_tier midas_db "MIDAS001" "enterprise").1 = TierChanged "enterprise" 4 199.
Proof.
  destruct (pricing_follows_tier midas_db midas_db_reachable)
    as (Hpriced & _ & Hreject & Hchange).
  eexists. split; [by vm_compute|].
  destruct (Hpriced "MIDAS001"%string _ eq_refl) as (Hrate & Hfee & _).
  split_and!; [exact Hrate | exact Hfee | by apply Hreject |].
  destruct (Hchange "MIDAS001"%string "enterprise"%string
              {| tier_name := "Enterprise"; price := 199; commission := 4 |} _
              eq_refl eq_refl) as (d' & c' & -> & _).
  done.
Defined.

(** *** Subscription billing *)








Example acme_due_before_first_invoice : clients_due acme_db 100 = ["ACME0001"%string].
Proof. by vm_compute. Qed.


Example acme_raw_create_invoice_twice :
  size (subscription_invoices
          (run acme_db [CreateInvoice "ACME0001" None "INV-0001" 100 101;
                        CreateInvoice "ACME0001" None "INV-0002" 102 103])) = 2%nat.
Proof. by vm_compute. Qed.

Example acme_due_scan_twice :
  size (subscription_invoices
          (run acme_db [GenerateMonthlyInvoices 100 (billing_env 100);
                        GenerateMonthlyInvoices 200 (billing_env 200)])) = 1%nat.
Proof. by vm_compute. Qed.

(** *** Marking an invoice paid *)

(** C9 as stated fails: for an invoice id that names no invoice the call
    changes nothing, but what it returns is [True]. *)
Lemma mark_invoice_paid_unknown_counterexample :
  subscription_invoices acme_db !! "INV-NONE"%string = None
  ∧ mark_invoice_paid acme_db "INV-NONE" "stripe" 7 = (true, acme_db)
  ∧ (mark_invoice_paid acme_db "INV-NONE" "stripe" 7).1 ≠ false.
Proof. split_and!; by vm_compute. Qed.

(** C9, amended. A call of [mark_invoice_paid] whose invoice id names no
    invoice changes no stored state and raises no error; it returns [True],
    as every call does.  For an invoice that exists, the status becomes
    'paid' with the given payment method and the time of the call, and no
    other invoice changes. *)
Theorem mark_invoice_paid_effect d invoice_id payment_method now :
  (subscription_invoices d !! invoice_id = None →
     mark_invoice_paid d invoice_id payment_method now = (true, d))
  ∧ (∀ i, subscription_invoices d !! invoice_id = Some i →
       ∃ d' i', mark_invoice_paid d invoice_id payment_method now = (true, d')
         ∧ subscription_invoices d' !! invoice_id = Some i'
         ∧ inv_status i' = "paid"%string
         ∧ inv_payment_method i' = Some payment_method
         ∧ inv_paid_at i' = Some now
         ∧ inv_client_id i' = inv_client_id i ∧ inv_amount i' = inv_amount i
         ∧ (∀ other, other ≠ invoice_id →
              subscription_invoices d' !! other = subscription_invoices d !! other)
         ∧ clients d' = clients d ∧ sales d' = sales d).
Proof.
  unfold mark_invoice_paid. split.
  - intros Hnone. rewrite alter_id' by done. by destruct d.
  - intros i Hi. eexists _, _. split; [done|]. simpl.
    rewrite lookup_alter_eq, Hi. simpl. split_and!; try done.
    intros other Hne. by rewrite lookup_alter_ne.
Qed.

Lemma mark_invoice_paid_effect_witness :
  mark_invoice_paid acme_db "INV-NONE" "stripe" 7 = (true, acme_db).
Proof.
  apply (proj1 (mark_invoice_paid_effect acme_db "INV-NONE" "stripe" 7)).
  by vm_compute.
Defined.
End HQFacts.

(** ** Authentication, telemetry and reports of the HQ server *)

Section HQViewsFacts.
Import HQ HQViews.

(** *** Sums over tables *)

Lemma total_Permutation {A} (col : A → Q) l1 l2 :
  l1 ≡ₚ l2 → total col l1 == total col l2.
Proof.
  unfold total. induction 1 as [|x l1 l2 _ IH|x y l|l1 l2 l3 _ IH1 _ IH2]; simpl.
  - reflexivity.
  - by rewrite IH.
  - ring.
  - by rewrite IH1.
Qed.

Lemma total_whole_cents {A} (col : A → Q) l :
  (∀ x, x ∈ l → whole_cents (col x)) → whole_cents (total col l).
Proof.
  unfold total. induction l as [|x l IH]; intros Hall; simpl.
  - exists 0%Z. reflexivity.
  - destruct (Hall x) as [n Hn]; [left|].
    destruct IH as [m Hm]; [intros y Hy; apply Hall; by right|].
    exists (n + m)%Z. rewrite Hn, Hm, inject_Z_plus. field.
Qed.

Lemma rows_insert {A} (table : gmap string A) id x :
  table !! id = None → rows (<[id := x]> table) ≡ₚ x :: rows table.
Proof. intros Hid. unfold rows. by rewrite map_to_list_insert. Qed.

Lemma elem_of_rows {A} (table : gmap string A) x :
  x ∈ rows table ↔ ∃ id, table !! id = Some x.
Proof.
  unfold rows. rewrite list_elem_of_fmap. split.
  - intros ([id y] & -> & Hin). exists id. by apply elem_of_map_to_list.
  - intros [id Hid]. exists (id, x). split; [done|]. by apply elem_of_map_to_list.
Qed.

(** A table seen as one row beside the rest of the table. *)
Lemma rows_lookup {A} (table : gmap string A) id x :
  table !! id = Some x → rows table ≡ₚ x :: rows (delete id table).
Proof.
  intros Hid. unfold rows. by rewrite <- (map_to_list_delete table id x).
Qed.

Lemma rows_alter {A} (f : A → A) (table : gmap string A) id x :
  table !! id = Some x → rows (alter f id table) ≡ₚ f x :: rows (delete id table).
Proof.
  intros Hid. rewrite (rows_lookup (alter f id table) id (f x)).
  - by rewrite delete_alter_eq.
  - by rewrite lookup_alter_eq, Hid.
Qed.

Lemma length_rows {A} (table : gmap string A) : length (rows table) = size table.
Proof. unfold rows. by rewrite length_fmap, length_map_to_list. Qed.

(** *** The invariant of the reports *)

Lemma whole_cents_Z (n : Z) : whole_cents (inject_Z n).
Proof. exists (n * 100)%Z. rewrite inject_Z_mult. field. Qed.

Lemma tier_price_whole tier : whole_cents (price (tier_or_starter tier)).
Proof.
  unfold tier_or_starter. destruct (TIERS !! tier) as [info|] eqn:Hinfo; simpl.
  - apply elem_of_list_to_map_2 in Hinfo.
    repeat (apply elem_of_cons in Hinfo as [[= _ ->]|Hinfo];
            [apply (whole_cents_Z _)|]).
    by apply elem_of_nil in Hinfo.
  - apply (whole_cents_Z 29).
Qed.

Lemma init_db_views_inv : views_inv init_db.
Proof. split; intros *; simpl; by rewrite ?lookup_empty. Qed.

Lemma create_invoice_views_inv d client_id tier invoice_id now created :
  views_inv d → views_inv (create_invoice d client_id tier invoice_id now created).2.
Proof.
  intros [Hkeys Hact Hst Hcl Ham Hfee]. unfold create_invoice.
  destruct (clients d !! client_id) as [row|] eqn:Hrow; [|by split].
  case_bool_decide; simpl; [by split|]. split; simpl.
  - intros id1 id2 c1 c2.
    intros [[-> (x1 & Hx1 & ->)]|[_ H1]]%lookup_alter_Some
           [[-> (x2 & Hx2 & ->)]|[_ H2]]%lookup_alter_Some; simpl; eauto.
  - intros id c [[-> (x & Hx & ->)]|[_ Hc]]%lookup_alter_Some; [|by eapply Hact].
    by apply (Hact _ _ Hx).
  - intros id i [[-> <-]|[_ Hi]]%lookup_insert_Some; [by left|by eapply Hst].
  - intros id i [[-> <-]|[_ Hi]]%lookup_insert_Some; simpl;
      apply lookup_alter_is_Some; [by rewrite Hrow|by eapply Hcl].
  - intros id i [[-> <-]|[_ Hi]]%lookup_insert_Some; [done|by eapply Ham].
  - done.
Qed.

Lemma create_invoices_preserves (I : db → Prop) d ids env k acc :
  (∀ d client_id tier invoice_id now created,
     I d → I (create_invoice d client_id tier invoice_id now created).2) →
  I d → I (create_invoices d ids env k acc).2.
Proof.
  intros Hstep. revert d k acc.
  induction ids as [|id ids IH]; intros d k acc Hd; simpl; [done|].
  pose proof (Hstep d id None (draw_invoice_id (env k)) (draw_now (env k))
                (draw_created (env k)) Hd) as Hd1.
  destruct (create_invoice d id None _ _ _) as [[[r|]|] d1]; simpl in *; auto.
Qed.

Lemma step_views_inv d c : views_inv d → views_inv (HQ.step d c).
Proof.
  intros Hinv. pose proof Hinv as [Hkeys Hact Hst Hcl Ham Hfee].
  destruct c as [nm em tier loc ph nt cid key created last| | | | |cid new_tier|]; simpl.
  - unfold register_client. destruct (_ || _) eqn:Hdup; simpl; [done|].
    apply orb_false_iff in Hdup as [[Hid _]%orb_false_iff Hkey].
    apply bool_decide_eq_false in Hid. apply bool_decide_eq_false in Hkey.
    assert (Hnew : ∀ id c, clients d !! id = Some c → HQ.api_key c ≠ key).
    { intros id c Hc Heq. apply Hkey, map_Exists_lookup. eauto. }
    split; simpl; try done.
    + intros id1 id2 c1 c2.
      intros [[-> <-]|[_ H1]]%lookup_insert_Some [[-> <-]|[_ H2]]%lookup_insert_Some;
        simpl; eauto.
      * intros Heq. by destruct (Hnew _ _ H2).
      * intros Heq. by destruct (Hnew _ _ H1).
    + intros id c [[-> <-]|[_ Hc]]%lookup_insert_Some; [done|by eapply Hact].
    + intros id i Hi. apply lookup_insert_is_Some'. right. by eapply Hcl.
  - unfold update_last_seen. split; simpl; try done.
    + intros id1 id2 c1 c2.
      intros [[-> (x1 & Hx1 & ->)]|[_ H1]]%lookup_alter_Some
             [[-> (x2 & Hx2 & ->)]|[_ H2]]%lookup_alter_Some; simpl; eauto.
    + intros id c [[-> (x & Hx & ->)]|[_ Hc]]%lookup_alter_Some; [|by eapply Hact].
      by apply (Hact _ _ Hx).
    + intros id i Hi. apply lookup_alter_is_Some. by eapply Hcl.
  - unfold record_sale. case_bool_decide; simpl; [done|]. split; simpl; try done.
    intros id s [[-> <-]|[_ Hs]]%lookup_insert_Some; [|by eapply Hfee].
    simpl. split; apply py_round_is_whole_cents.
  - by apply create_invoice_views_inv.
  - split; simpl; try done.
    + intros id i [[-> (x & Hx & ->)]|[_ Hi]]%lookup_alter_Some; [by right|by eapply Hst].
    + intros id i [[-> (x & Hx & ->)]|[_ Hi]]%lookup_alter_Some; simpl; by eapply Hcl.
    + intros id i [[-> (x & Hx & ->)]|[_ Hi]]%lookup_alter_Some; simpl; by eapply Ham.
  - unfold change_client_tier. destruct (TIERS !! new_tier); [|done].
    split; simpl; try done.
    + intros id1 id2 c1 c2.
      intros [[-> (x1 & Hx1 & ->)]|[_ H1]]%lookup_alter_Some
             [[-> (x2 & Hx2 & ->)]|[_ H2]]%lookup_alter_Some; simpl; eauto.
    + intros id c [[-> (x & Hx & ->)]|[_ Hc]]%lookup_alter_Some; [|by eapply Hact].
      by apply (Hact _ _ Hx).
    + intros id i Hi. apply lookup_alter_is_Some. by eapply Hcl.
  - unfold generate_monthly_invoices.
    apply create_invoices_preserves; [apply create_invoice_views_inv|done].
Qed.

Lemma run_preserves (I : db → Prop) d cs :
  (∀ d c, I d → I (HQ.step d c)) → I d → I (HQ.run d cs).
Proof.
  intros Hstep. revert d. induction cs as [|c cs IH]; intros d Hd; [done|].
  apply IH. by apply Hstep.
Qed.

Lemma reachable_views_inv d : HQ.reachable d → views_inv d.
Proof.
  intros [cs ->]. apply run_preserves; [apply step_views_inv | apply init_db_views_inv].
Qed.

Lemma reachable_run d cs : HQ.reachable d → HQ.reachable (HQ.run d cs).
Proof.
  intros [cs0 ->]. exists (cs0 ++ cs). unfold HQ.run. by rewrite foldl_app.
Qed.


(** *** Authentication *)

Lemma elem_of_key_holders d key id c :
  (id, c) ∈ key_holders d key ↔
    clients d !! id = Some c ∧ HQ.api_key c = key ∧ is_active c.
Proof.
  unfold key_holders. rewrite elem_of_map_to_list, map_lookup_filter_Some. naive_solver.
Qed.

Lemma get_client_by_api_key_Some d key now id row d' :
  get_client_by_api_key d key now = (Some (id, row), d') →
  clients d !! id = Some row ∧ HQ.api_key row = key ∧ is_active row
  ∧ d' = update_last_seen d id now.
Proof.
  unfold get_client_by_api_key.
  destruct (head (key_holders d key)) as [[id' row']|] eqn:Hhd; [|done].
  intros [= -> -> <-]. apply head_Some_elem_of, elem_of_key_holders in Hhd.
  by destruct Hhd as (? & ? & ?).
Qed.

Lemma get_client_by_api_key_None d key now d' :
  get_client_by_api_key d key now = (None, d') →
  d' = d ∧ ∀ id c, clients d !! id = Some c → ¬ (HQ.api_key c = key ∧ is_active c).
Proof.
  unfold get_client_by_api_key.
  destruct (head (key_holders d key)) as [[id' row']|] eqn:Hhd; [done|].
  intros [= <-]. split; [done|]. intros id c Hc [Hkey Hact].
  assert (Hin : (id, c) ∈ key_holders d key) by (by apply elem_of_key_holders).
  destruct (key_holders d key); [by apply elem_of_nil in Hin | done].
Qed.

(** In a reachable database the key of a client finds that client. *)
Lemma get_client_by_api_key_own d id c now :
  HQ.reachable d → clients d !! id = Some c →
  get_client_by_api_key d (HQ.api_key c) now = (Some (id, c), update_last_seen d id now).
Proof.
  intros Hinv%reachable_views_inv Hc.
  destruct (get_client_by_api_key d (HQ.api_key c) now) as [[[id' c']|] d'] eqn:Hcall.
  - apply get_client_by_api_key_Some in Hcall as (Hc' & Hkey & _ & ->).
    assert (id' = id) as -> by (by eapply (api_keys_unique d Hinv)).
    by simplify_eq.
  - apply get_client_by_api_key_None in Hcall as [_ Hnone].
    destruct (Hnone id c Hc). split; [done|]. by eapply (all_active d Hinv).
Qed.

(** X1. A client that [register_client] has stored authenticates with the
    API key it was given, at any later time: [get_client_by_api_key] finds
    that client (with the tier, rate and fee of the registration) and no
    other, in the database after the registration and in every database
    reached from it in which the row is as stored. *)
Theorem registered_key_authenticates d nm em tier loc ph nt id key created last rate fee d' :
  HQ.reachable d →
  register_client d nm em tier loc ph nt id key created last
    = (RegisterSuccess id key tier rate fee, d') →
  ∃ c, clients d' !! id = Some c
    ∧ HQ.api_key c = key ∧ subscription_tier c = tier
    ∧ commission_rate c = rate ∧ monthly_fee c = fee
    ∧ (∀ now, get_client_by_api_key d' key now = (Some (id, c), update_last_seen d' id now))
    ∧ (∀ cs c' now, clients (HQ.run d' cs) !! id = Some c' → HQ.api_key c' = key →
         get_client_by_api_key (HQ.run d' cs) key now
           = (Some (id, c'), update_last_seen (HQ.run d' cs) id now)).
Proof.
  intros Hreach Hreg.
  assert (Hreach' : HQ.reachable d').
  { replace d' with (HQ.run d [RegisterClient nm em tier loc ph nt id key created last])
      by (simpl; by rewrite Hreg).
    by apply reachable_run. }
  unfold register_client in Hreg. destruct (_ || _); [done|].
  injection Hreg as <- <- <-. simpl. eexists. rewrite lookup_insert_eq.
  split; [done|]. simpl. split_and!; try done.
  - intros now.
    by rewrite <- (get_client_by_api_key_own _ id _ now Hreach') by (simpl; apply lookup_insert_eq).
  - intros cs c' now Hc' <-.
    apply get_client_by_api_key_own; [by apply reachable_run | done].
Qed.

Lemma registered_key_authenticates_witness :
  ∃ c, clients acme_db !! "ACME0001"%string = Some c
    ∧ get_client_by_api_key acme_db "nxs_acme" 50
      = (Some ("ACME0001"%string, c), update_last_seen acme_db "ACME0001" 50).
Proof.
  destruct (registered_key_authenticates init_db "Acme" "owner@acme.example" "starter"
              "" "" "" "ACME0001" "nxs_acme" 0 0 _ _ _ (ex_intro _ [] eq_refl) eq_refl)
    as (c & Hc & _ & _ & _ & _ & Hauth & _).
  exists c. split; [exact Hc | apply Hauth].
Defined.

(** X2. [get_client_by_api_key] answers [None] and leaves the database as
    it is exactly when no active client holds the key; otherwise it returns
    a client that holds the key, as the row was before the call, and the
    only change to the database is the [last_seen] of that client. *)
Theorem get_client_by_api_key_effect d key now :
  (∀ d', get_client_by_api_key d key now = (None, d') →
     d' = d ∧ ∀ id c, clients d !! id = Some c → ¬ (HQ.api_key c = key ∧ is_active c))
  ∧ (∀ id row d', get_client_by_api_key d key now = (Some (id, row), d') →
       clients d !! id = Some row ∧ HQ.api_key row = key ∧ is_active row
       ∧ clients d' !! id = Some (set_last_seen now row)
       ∧ (∀ other, other ≠ id → clients d' !! other = clients d !! other)
       ∧ sales d' = sales d ∧ subscription_invoices d' = subscription_invoices d).
Proof.
  split.
  - intros d'. apply get_client_by_api_key_None.
  - intros id row d' (Hrow & Hkey & Hact & ->)%get_client_by_api_key_Some.
    split_and!; try done; simpl.
    + by rewrite lookup_alter_eq, Hrow.
    + intros other Hne. by rewrite lookup_alter_ne.
Qed.

Lemma get_client_by_api_key_effect_witness :
  get_client_by_api_key acme_db "nxs_nobody" 50 = (None, acme_db)
  ∧ ∃ row, clients (get_client_by_api_key acme_db "nxs_acme" 50).2 !! "ACME0001"%string
           = Some (set_last_seen 50 row).
Proof.
  destruct (get_client_by_api_key_effect acme_db "nxs_nobody" 50) as [Hnone _].
  destruct (get_client_by_api_key_effect acme_db "nxs_acme" 50) as [_ Hsome].
  split.
  - destruct (Hnone acme_db) as [_ _]; by vm_compute.
  - edestruct (Hsome "ACME0001"%string) as (_ & _ & _ & Hseen & _); [by vm_compute|].
    eexists. exact Hseen.
Defined.

(** *** The phone-home route for sales *)



(** *** Scans *)

(** What the loop of the batch does to the store: the scans are appended,
    numbered from the counter on, and nothing else changes. *)
Lemma record_scans_spec s client_id entries clock k ok s' :
  record_scans s client_id entries clock k = (ok, s') →
  core s' = core s ∧ grading_disputes s' = grading_disputes s
  ∧ ∃ new, scans s' = scans s ++ new
      ∧ seq_scans s' = (seq_scans s + Z.of_nat (length new))%Z
      ∧ Forall (λ sc, scan_client_id sc = client_id) new
      ∧ length new ≤ length entries
      ∧ card_name <$> new = entry_card_name <$> take (length new) entries
      ∧ Forall (λ e, is_Some (entry_floats e)) (take (length new) entries)
      ∧ (if ok then length new = length entries
         else ∃ bad, entries !! length new = Some bad ∧ entry_floats bad = None).
Proof.
  revert s k. induction entries as [|e entries IH]; intros s k; simpl.
  - intros [= <- <-]. split_and!; try done. exists []. rewrite app_nil_r.
    split_and!; simpl; try done; lia.
  - destruct (entry_floats e) as [[price confidence]|] eqn:He.
    + intros (Hcore & Hdis & new & Hnew & Hseq & Hcl & Hlen & Hnames & Hgood & Hok)%IH.
      simpl in *. split_and!; try done.
      eexists (_ :: new). rewrite Hnew, <- app_assoc. simpl.
      split_and!; try done; try lia.
      * by constructor.
      * csimpl. by f_equal.
      * constructor; [by rewrite He|done].
      * destruct ok; [lia|done].
    + intros [= <- <-]. split_and!; try done. exists []. rewrite app_nil_r.
      split_and!; simpl; try done; try lia.
      by exists e.
Qed.

(** X4. A batch of scans whose prices and confidences all convert is
    recorded in full for the authenticated client: the response counts the
    entries, and the [scans] table grows by exactly one row per entry, in
    the order of the batch; a request refused for its key records no scan. *)
Theorem batch_scans_recorded_in_order s key now entries clock :
  Forall (λ e, is_Some (entry_floats e)) entries →
  (∀ id row d1, get_client_by_api_key (core s) key now = (Some (id, row), d1) →
     truthy key = true →
     ∃ s' new, phone_home_batch_scans s key now entries clock
                 = (ScansRecorded (length entries), s')
       ∧ scans s' = scans s ++ new
       ∧ length new = length entries
       ∧ Forall (λ sc, scan_client_id sc = id) new
       ∧ card_name <$> new = entry_card_name <$> entries
       ∧ core s' = d1)
  ∧ (∀ resp s', phone_home_batch_scans s key now entries clock = (resp, s') →
       resp = ScanMissingApiKey ∨ resp = ScanInvalidApiKey → s' = s).
Proof.
  intros Hgood. split.
  - intros id row d1 Hauth Hkey. unfold phone_home_batch_scans. rewrite Hkey, Hauth. simpl.
    destruct (record_scans _ id entries clock 0) as [ok s'] eqn:Hloop.
    apply record_scans_spec in Hloop
      as (Hcore & _ & new & Hnew & _ & Hcl & Hlen & Hnames & _ & Hok).
    destruct ok.
    + exists s', new. rewrite Hok, firstn_all in Hnames. by split_and!.
    + destruct Hok as (bad & Hbad & Hnone).
      apply list_elem_of_lookup_2 in Hbad.
      rewrite Forall_forall in Hgood. destruct (Hgood bad Hbad) as [? ?]. congruence.
  - intros resp s'. unfold phone_home_batch_scans.
    destruct (truthy key); simpl; [|by intros [= <- <-]].
    destruct (get_client_by_api_key (core s) key now) as [[[id row]|] d1] eqn:Hauth.
    + destruct (record_scans _ id entries clock 0) as [[] ?];
        intros [= <- <-] [?|?]; done.
    + apply get_client_by_api_key_None in Hauth as [-> _].
      intros [= <- <-] _. by destruct s.
Qed.

(** X5. A batch with an entry whose price or confidence does not convert
    fails as a whole, and yet the entries before the first such entry are
    in the [scans] table, and none after it: [record_scan] commits each
    scan on its own and nothing undoes them. *)
Theorem batch_scans_stop_at_first_bad_entry s key now good bad rest clock id row d1 :
  truthy key = true →
  get_client_by_api_key (core s) key now = (Some (id, row), d1) →
  Forall (λ e, is_Some (entry_floats e)) good →
  entry_floats bad = None →
  ∃ s' new, phone_home_batch_scans s key now (good ++ bad :: rest) clock = (ScanFailed, s')
    ∧ scans s' = scans s ++ new
    ∧ length new = length good
    ∧ Forall (λ sc, scan_client_id sc = id) new
    ∧ card_name <$> new = entry_card_name <$> good.
Proof.
  intros Hkey Hauth Hgood Hbad. unfold phone_home_batch_scans. rewrite Hkey, Hauth. simpl.
  destruct (record_scans _ id (good ++ bad :: rest) clock 0) as [ok s'] eqn:Hloop.
  apply record_scans_spec in Hloop
    as (_ & _ & new & Hnew & _ & Hcl & Hlen & Hnames & Hconv & Hok).
  assert (Hlen' : length new = length good).
  { destruct (decide (length new < length good)%nat) as [Hlt|Hge].
    - (* the loop would have stopped at an entry that converts *)
      destruct ok.
      + rewrite length_app in Hok. simpl in Hok. lia.
      + destruct Hok as (e & He & Hnone). rewrite lookup_app_l in He by done.
        apply list_elem_of_lookup_2 in He. rewrite Forall_forall in Hgood.
        destruct (Hgood e He) as [? ?]. congruence.
    - destruct (decide (length new = length good)) as [|Hne]; [done|].
      (* the loop would have converted the bad entry *)
      rewrite Forall_forall in Hconv. destruct (Hconv bad) as [? Hsome]; [|congruence].
      apply elem_of_take. exists (length good). split; [|lia].
      by rewrite list_lookup_middle. }
  assert (ok = false) as ->.
  { destruct ok; [|done]. rewrite length_app in Hok. simpl in Hok. lia. }
  exists s', new. split_and!; try done.
  by rewrite Hnames, Hlen', take_app_length.
Qed.

Lemma batch_scans_recorded_in_order_witness :
  ∃ s', phone_home_batch_scans
          {| core := acme_db; scans := []; seq_scans := 0; grading_disputes := [] |}
          "nxs_acme" 50
          [{| entry_card_name := "Lightning Bolt"; entry_set_code := "LEA";
              entry_rarity := "common"; entry_price := Number 2;
              entry_confidence := Number 1 |}]
          (λ k, 60 + Z.of_nat k)%Z
        = (ScansRecorded 1, s')
    ∧ card_name <$> scans s' = ["Lightning Bolt"%string].
Proof.
  destruct (batch_scans_recorded_in_order
              {| core := acme_db; scans := []; seq_scans := 0; grading_disputes := [] |}
              "nxs_acme" 50
              [{| entry_card_name := "Lightning Bolt"; entry_set_code := "LEA";
                  entry_rarity := "common"; entry_price := Number 2;
                  entry_confidence := Number 1 |}]
              (λ k, 60 + Z.of_nat k)%Z) as [Hok _].
  { repeat constructor. by eexists. }
  edestruct (Hok "ACME0001"%string) as (s' & new & Hcall & Hscans & _ & _ & Hnames & _);
    [by vm_compute|done|].
  change (scans s' = new) in Hscans.
  exists s'. split; [exact Hcall|]. by rewrite Hscans, Hnames.
Defined.

Lemma batch_scans_stop_at_first_bad_entry_witness :
  ∃ s', phone_home_batch_scans
          {| core := acme_db; scans := []; seq_scans := 0; grading_disputes := [] |}
          "nxs_acme" 50
          [{| entry_card_name := "Lightning Bolt"; entry_set_code := "LEA";
              entry_rarity := "common"; entry_price := Number 2;
              entry_confidence := Number 1 |};
           {| entry_card_name := "Black Lotus"; entry_set_code := "LEA";
              entry_rarity := "rare"; entry_price := NotANumber;
              entry_confidence := Number 1 |};
           {| entry_card_name := "Counterspell"; entry_set_code := "LEA";
              entry_rarity := "uncommon"; entry_price := Number 1;
              entry_confidence := Number 1 |}]
          (λ k, 60 + Z.of_nat k)%Z
        = (ScanFailed, s')
    ∧ card_name <$> scans s' = ["Lightning Bolt"%string].
Proof.
  edestruct (batch_scans_stop_at_first_bad_entry
              {| core := acme_db; scans := []; seq_scans := 0; grading_disputes := [] |}
              "nxs_acme" 50
              [{| entry_card_name := "Lightning Bolt"; entry_set_code := "LEA";
                  entry_rarity := "common"; entry_price := Number 2;
                  entry_confidence := Number 1 |}]
              {| entry_card_name := "Black Lotus"; entry_set_code := "LEA";
                 entry_rarity := "rare"; entry_price := NotANumber;
                 entry_confidence := Number 1 |}
              [{| entry_card_name := "Counterspell"; entry_set_code := "LEA";
                  entry_rarity := "uncommon"; entry_price := Number 1;
                  entry_confidence := Number 1 |}]
              (λ k, 60 + Z.of_nat k)%Z "ACME0001"%string)
    as (s' & new & Hcall & Hscans & _ & _ & Hnames);
    [done | by vm_compute | repeat constructor; by eexists | done |].
  change (scans s' = new) in Hscans.
  exists s'. split; [exact Hcall|]. by rewrite Hscans, Hnames.
Defined.

(** *** Subscription revenue *)

#[local] Instance total_Proper {A} (col : A → Q) : Proper ((≡ₚ) ==> Qeq) (total col).
Proof. intros l1 l2. apply total_Permutation. Qed.

Lemma total_cons {A} (col : A → Q) x l : total col (x :: l) = col x + total col l.
Proof. done. Qed.

Lemma total_nonneg {A} (col : A → Q) l : (∀ x, x ∈ l → 0 <= col x) → 0 <= total col l.
Proof.
  induction l as [|x l IH]; intros Hall; [done|]. rewrite total_cons.
  assert (0 <= col x) by (apply Hall; left).
  assert (0 <= total col l) by (apply IH; intros y Hy; apply Hall; by right). lra.
Qed.

(** Rows that are in one of two classes, never in both: the two partial
    sums add up to the sum. *)
Lemma total_filter_split {A} (col : A → Q) (P R : A → Prop)
    `{!∀ x, Decision (P x), !∀ x, Decision (R x)} l :
  (∀ x, x ∈ l → (P x ∨ R x) ∧ ¬ (P x ∧ R x)) →
  total col (filter P l) + total col (filter R l) == total col l
  ∧ (length (filter P l) + length (filter R l))%nat = length l.
Proof.
  induction l as [|x l IH]; intros Hall; [done|].
  destruct IH as [IHt IHl]; [intros y Hy; apply Hall; by right|].
  destruct (Hall x) as [Hor Hnot]; [left|]. rewrite !filter_cons.
  destruct (decide (P x)), (decide (R x)); try tauto;
    rewrite ?total_cons; simpl; split; try lia; rewrite <- IHt; ring.
Qed.

Lemma total_filter_le {A} (col : A → Q) (P R : A → Prop)
    `{!∀ x, Decision (P x), !∀ x, Decision (R x)} l :
  (∀ x, x ∈ l → 0 <= col x) → (∀ x, P x → R x) →
  total col (filter P l) <= total col (filter R l).
Proof.
  intros Hnn Himp. induction l as [|x l IH]; [done|].
  assert (0 <= col x) by (apply Hnn; left).
  assert (IH' : total col (filter P l) <= total col (filter R l))
    by (apply IH; intros y Hy; apply Hnn; by right).
  rewrite !filter_cons.
  destruct (decide (P x)) as [HP|HP], (decide (R x)) as [HR|HR];
    rewrite ?total_cons; try lra. destruct HR. by apply Himp.
Qed.

Lemma tier_price_nonneg tier : 0 <= price (tier_or_starter tier).
Proof.
  unfold tier_or_starter. destruct (TIERS !! tier) as [info|] eqn:Hinfo; simpl; [|done].
  apply elem_of_list_to_map_2 in Hinfo.
  repeat (apply elem_of_cons in Hinfo as [[= _ ->]|Hinfo]; [done|]).
  by apply elem_of_nil in Hinfo.
Qed.

(** In a reachable database the sums of the report are whole numbers of
    cents, and rounding them to two decimals changes nothing. *)
Lemma revenue_exact d month_start :
  HQ.reachable d →
  let r := get_subscription_revenue d month_start in
  let invoices := rows (subscription_invoices d) in
  mrr r == total monthly_fee (active_clients d)
  ∧ total_collected r == total inv_amount (filter is_paid invoices)
  ∧ pending_amount r == total inv_amount (filter is_pending invoices)
  ∧ month_collected r
    == total inv_amount (filter (λ i, is_paid i ∧ paid_since month_start i) invoices).
Proof.
  intros Hreach. pose proof (reachable_views_inv d Hreach) as Hinv.
  pose proof (reachable_pricing_inv d Hreach) as Hprice. simpl.
  assert (Hamount : ∀ (P : invoice → Prop) `{!∀ x, Decision (P x)},
            whole_cents (total inv_amount (filter P (rows (subscription_invoices d))))).
  { intros P ?. apply total_whole_cents.
    intros i [_ [id Hi]%elem_of_rows]%list_elem_of_filter.
    rewrite (invoice_amount d Hinv id i Hi). apply tier_price_whole. }
  split_and!; try (apply py_round_whole_cents, Hamount).
  apply py_round_whole_cents, total_whole_cents.
  intros c [_ [id Hc]%elem_of_rows]%list_elem_of_filter.
  destruct (Hprice id c Hc) as [_ ->]. apply tier_price_whole.
Qed.

Lemma paid_not_pending i : ¬ (is_paid i ∧ is_pending i).
Proof. unfold is_paid, is_pending. intros [-> ?]. done. Qed.

(** X6. In a reachable database every invoice is either pending or paid,
    so the revenue report accounts for every invoice once: collected plus
    pending is the sum of all invoice amounts, the count of pending
    invoices and of paid ones is the number of invoices, and what was
    collected this month is at most what was collected in total. *)
Theorem revenue_accounts_for_every_invoice d month_start :
  HQ.reachable d →
  let r := get_subscription_revenue d month_start in
  let invoices := rows (subscription_invoices d) in
  total_collected r + pending_amount r == total inv_amount invoices
  ∧ (pending_invoices r + count_where is_paid invoices)%Z
    = Z.of_nat (size (subscription_invoices d))
  ∧ month_collected r <= total_collected r
  ∧ 0 <= pending_amount r.
Proof.
  intros Hreach. pose proof (reachable_views_inv d Hreach) as Hinv.
  destruct (revenue_exact d month_start Hreach) as (_ & Htot & Hpen & Hmon). simpl in *.
  assert (Hnn : ∀ i, i ∈ rows (subscription_invoices d) → 0 <= inv_amount i).
  { intros i [id Hi]%elem_of_rows. rewrite (invoice_amount d Hinv id i Hi).
    apply tier_price_nonneg. }
  destruct (total_filter_split inv_amount is_paid is_pending
              (rows (subscription_invoices d))) as [Hsum Hlen].
  { intros i [id Hi]%elem_of_rows. split; [|apply paid_not_pending].
    destruct (invoice_status d Hinv id i Hi); auto. }
  split_and!.
  - by rewrite Htot, Hpen.
  - unfold count_where. rewrite <- length_rows. lia.
  - rewrite Htot, Hmon. apply total_filter_le; [done|]. by intros i [? _].
  - rewrite Hpen. apply total_nonneg.
    intros i [_ Hi]%list_elem_of_filter. by apply Hnn.
Qed.

Lemma revenue_accounts_for_every_invoice_witness :
  ∃ d, d = HQ.run acme_db [CreateInvoice "ACME0001" None "INV-0001" 100 101;
                           CreateInvoice "ACME0001" None "INV-0002" 102 103;
                           MarkInvoicePaid "INV-0001" "stripe" 104]
  ∧ total_collected (get_subscription_revenue d 0)
    + pending_amount (get_subscription_revenue d 0)
    == total inv_amount (rows (subscription_invoices d)).
Proof.
  eexists. split; [reflexivity|].
  apply (revenue_accounts_for_every_invoice _ 0). apply reachable_run. by exists acme_calls.
Defined.

(** *** Revenue after a change of a table *)

(** The sum and the count of the rows selected by [P], before and after the
    row [id] is rewritten by [f]. *)
Lemma total_filter_alter {A} (col : A → Q) (P : A → Prop) `{!∀ x, Decision (P x)}
    (f : A → A) (table : gmap string A) id x :
  table !! id = Some x →
  total col (filter P (rows (alter f id table))) + total col (filter P [x])
  == total col (filter P (rows table)) + total col (filter P [f x])
  ∧ (length (filter P (rows (alter f id table))) + length (filter P [x]))%nat
    = (length (filter P (rows table)) + length (filter P [f x]))%nat.
Proof.
  intros Hid. rewrite (rows_alter f table id x Hid), (rows_lookup table id x Hid).
  rewrite !filter_cons, !filter_nil.
  destruct (decide (P x)), (decide (P (f x))); rewrite ?total_cons; simpl;
    split; try lia; ring.
Qed.

Lemma total_filter_insert {A} (col : A → Q) (P : A → Prop) `{!∀ x, Decision (P x)}
    (table : gmap string A) id x :
  table !! id = None →
  total col (filter P (rows (<[id := x]> table)))
  == total col (filter P [x]) + total col (filter P (rows table))
  ∧ length (filter P (rows (<[id := x]> table)))
    = (length (filter P [x]) + length (filter P (rows table)))%nat.
Proof.
  intros Hid. rewrite (rows_insert table id x Hid).
  rewrite !filter_cons, !filter_nil.
  destruct (decide (P x)); rewrite ?total_cons; simpl; split; try lia; ring.
Qed.

(** X7. In a reachable database a change of a client's tier to a tier of
    [TIERS] moves the monthly recurring revenue by the difference between
    the price of the new tier and the fee the client paid before.  The
    change issues no invoice and touches none: an invoice that is pending
    keeps the amount it was created with. *)
Theorem tier_change_moves_mrr d client_id c new_tier info month_start :
  HQ.reachable d →
  clients d !! client_id = Some c →
  TIERS !! new_tier = Some info →
  ∃ d', change_client_tier d client_id new_tier
        = (TierChanged new_tier (commission info) (price info), d')
    ∧ mrr (get_subscription_revenue d' month_start)
      == mrr (get_subscription_revenue d month_start) - monthly_fee c + price info
    ∧ subscription_invoices d' = subscription_invoices d
    ∧ sales d' = sales d.
Proof.
  intros Hreach Hc Hinfo.
  assert (Hreach' : HQ.reachable (HQ.step d (ChangeClientTier client_id new_tier)))
    by apply (reachable_run d [ChangeClientTier client_id new_tier] Hreach).
  destruct (revenue_exact d month_start Hreach) as (Hmrr & _).
  destruct (revenue_exact _ month_start Hreach') as (Hmrr' & _).
  simpl in Hmrr, Hmrr', Hreach'. unfold change_client_tier in *. rewrite Hinfo in *.
  eexists. split; [reflexivity|]. split; [|done].
  rewrite Hmrr, Hmrr'. unfold active_clients. simpl.
  destruct (total_filter_alter monthly_fee is_active
              (set_tier new_tier (commission info) (price info)) (clients d) client_id c Hc)
    as [Hsum _].
  pose proof (all_active d (reachable_views_inv d Hreach) client_id c Hc) as Hact.
  rewrite !filter_cons, !filter_nil in Hsum.
  destruct (decide (is_active c)); [|done].
  destruct (decide (is_active (set_tier new_tier (commission info) (price info) c)));
    [|done].
  rewrite !total_cons in Hsum. simpl in Hsum. lra.
Qed.

Lemma tier_change_moves_mrr_witness :
  ∃ d', change_client_tier acme_db "ACME0001" "enterprise" = (TierChanged "enterprise" 4 199, d')
    ∧ mrr (get_subscription_revenue d' 0) == mrr (get_subscription_revenue acme_db 0) - 29 + 199.
Proof.
  destruct (tier_change_moves_mrr acme_db "ACME0001"
              {| name := "Acme"; email := "owner@acme.example"; api_key := "nxs_acme";
                 subscription_tier := "starter"; commission_rate := 8; monthly_fee := 29;
                 status := "active"; created_at := 0; last_seen := 0; location := "";
                 contact_phone := ""; notes := ""; next_billing_date := None |}
              "enterprise" {| price := 199; commission := 4; tier_name := "Enterprise" |} 0)
    as (d' & Hcall & Hmrr & _).
  - by exists acme_calls.
  - by vm_compute.
  - by vm_compute.
  - exists d'. split; [exact Hcall | exact Hmrr].
Defined.

(** X8. In a reachable database, paying a pending invoice moves its amount
    from the pending side of the revenue report to the collected side and
    lowers the count of pending invoices by one.  Paying an invoice that is
    paid already is accepted too, and leaves these figures as they are.
    The monthly recurring revenue is the same in both cases. *)
Theorem payment_moves_pending_to_collected d invoice_id i payment_method now month_start :
  HQ.reachable d →
  subscription_invoices d !! invoice_id = Some i →
  ∃ d', mark_invoice_paid d invoice_id payment_method now = (true, d')
    ∧ let r := get_subscription_revenue d month_start in
      let r' := get_subscription_revenue d' month_start in
      (is_pending i →
         total_collected r' == total_collected r + inv_amount i
         ∧ pending_amount r' == pending_amount r - inv_amount i
         ∧ pending_invoices r' = (pending_invoices r - 1)%Z)
      ∧ (is_paid i →
         total_collected r' == total_collected r
         ∧ pending_amount r' == pending_amount r
         ∧ pending_invoices r' = pending_invoices r)
      ∧ mrr r' = mrr r.
Proof.
  intros Hreach Hi. eexists. split; [reflexivity|].
  assert (Hreach' : HQ.reachable (HQ.step d (MarkInvoicePaid invoice_id payment_method now)))
    by apply (reachable_run d [MarkInvoicePaid invoice_id payment_method now] Hreach).
  destruct (revenue_exact d month_start Hreach) as (_ & Htot & Hpen & _).
  destruct (revenue_exact _ month_start Hreach') as (_ & Htot' & Hpen' & _).
  simpl in Htot, Hpen, Htot', Hpen'. simpl.
  destruct (total_filter_alter inv_amount is_paid (set_paid now payment_method)
              (subscription_invoices d) invoice_id i Hi) as [Hpaid _].
  destruct (total_filter_alter inv_amount is_pending (set_paid now payment_method)
              (subscription_invoices d) invoice_id i Hi) as [Hpending Hcount].
  rewrite !filter_cons, !filter_nil in Hpaid, Hpending, Hcount.
  destruct (decide (is_paid (set_paid now payment_method i))) as [_|[]]; [|done].
  destruct (decide (is_pending (set_paid now payment_method i))) as [[=]|_].
  unfold count_where. split_and!; [| |done].
  - intros Hp. destruct (decide (is_pending i)); [|done].
    destruct (decide (is_paid i)) as [Hpaid'|_]; [by destruct (paid_not_pending i)|].
    rewrite ?total_cons in Hpaid, Hpending. simpl in Hpaid, Hpending, Hcount.
    split_and!; [rewrite Htot, Htot'; lra | rewrite Hpen, Hpen'; lra | lia].
  - intros Hp. destruct (decide (is_paid i)); [|done].
    destruct (decide (is_pending i)) as [Hpen''|_]; [by destruct (paid_not_pending i)|].
    rewrite ?total_cons in Hpaid, Hpending. simpl in Hpaid, Hpending, Hcount.
    split_and!; [rewrite Htot, Htot'; lra | rewrite Hpen, Hpen'; lra | lia].
Qed.

Lemma payment_moves_pending_to_collected_witness :
  ∃ d d', d = HQ.run acme_db [CreateInvoice "ACME0001" None "INV-0001" 100 101]
    ∧ mark_invoice_paid d "INV-0001" "stripe" 200 = (true, d')
    ∧ total_collected (get_subscription_revenue d' 0)
      == total_collected (get_subscription_revenue d 0) + 29.
Proof.
  eexists.
  edestruct (payment_moves_pending_to_collected
               (HQ.run acme_db [CreateInvoice "ACME0001" None "INV-0001" 100 101])
               "INV-0001"
               {| inv_client_id := "ACME0001"; inv_tier := "starter"; inv_amount := 29;
                  inv_period_start := 100; inv_period_end := 100 + timedelta_days 30;
                  inv_status := "pending"; inv_paid_at := None;
                  inv_payment_method := None; inv_created_at := 101 |}
               "stripe" 200 0) as (d' & Hcall & Hpending & _).
  - apply reachable_run. by exists acme_calls.
  - by vm_compute.
  - exists d'. split; [reflexivity|]. split; [exact Hcall|].
    by destruct Hpending as (Hcollected & _).
Defined.

(** X9. In a reachable database a successful [create_invoice] bills the
    price of the tier it was given, and without a tier the client's stored
    monthly fee.  The invoice enters the revenue report as pending: the
    pending amount grows by the amount billed, the count by one, and
    neither the collected total nor the monthly recurring revenue moves. *)
Theorem create_invoice_bills_monthly_fee d client_id tier invoice_id now created r d'
    month_start :
  HQ.reachable d →
  create_invoice d client_id tier invoice_id now created = (Returned (Some r), d') →
  ∃ c, clients d !! client_id = Some c
    ∧ r_tier r = tier_or tier (subscription_tier c)
    ∧ r_amount r = get_monthly_fee (r_tier r)
    ∧ (tier = None → r_amount r = monthly_fee c)
    ∧ r_status r = "pending"%string
    ∧ let v := get_subscription_revenue d month_start in
      let v' := get_subscription_revenue d' month_start in
      pending_amount v' == pending_amount v + r_amount r
      ∧ pending_invoices v' = (pending_invoices v + 1)%Z
      ∧ total_collected v' == total_collected v
      ∧ mrr v' == mrr v.
Proof.
  intros Hreach Hcall.
  assert (Hreach' : HQ.reachable d').
  { replace d' with (HQ.step d (CreateInvoice client_id tier invoice_id now created))
      by (simpl; by rewrite Hcall).
    apply (reachable_run d [CreateInvoice client_id tier invoice_id now created] Hreach). }
  destruct (revenue_exact d month_start Hreach) as (Hmrr & Htot & Hpen & _).
  destruct (revenue_exact d' month_start Hreach') as (Hmrr' & Htot' & Hpen' & _).
  simpl in Hmrr, Htot, Hpen, Hmrr', Htot', Hpen'.
  unfold create_invoice in Hcall.
  destruct (clients d !! client_id) as [c|] eqn:Hc; [|done].
  case_bool_decide as Hdup; [done|]. apply eq_None_not_Some in Hdup.
  injection Hcall as <- <-. exists c. simpl in *. split_and!; try done.
  - intros ->. simpl. by destruct (reachable_pricing_inv d Hreach client_id c Hc) as [_ ->].
  - rewrite Hpen, Hpen'.
    destruct (total_filter_insert inv_amount is_pending (subscription_invoices d) invoice_id
                {| inv_client_id := client_id;
                   inv_tier := tier_or tier (subscription_tier c);
                   inv_amount := price (tier_or_starter (tier_or tier (subscription_tier c)));
                   inv_period_start := now; inv_period_end := now + timedelta_days 30;
                   inv_status := "pending"; inv_paid_at := None;
                   inv_payment_method := None; inv_created_at := created |} Hdup)
      as [-> _].
    rewrite filter_cons, filter_nil. destruct (decide _) as [_|[]]; [|done].
    rewrite total_cons. simpl. ring.
  - unfold count_where.
    rewrite (proj2 (total_filter_insert inv_amount is_pending _ invoice_id _ Hdup)).
    rewrite filter_cons, filter_nil. destruct (decide _) as [_|[]]; [|done]. simpl. lia.
  - rewrite Htot, Htot'.
    rewrite (proj1 (total_filter_insert inv_amount is_paid _ invoice_id _ Hdup)).
    rewrite filter_cons, filter_nil. destruct (decide _) as [[=]|_]. simpl. ring.
  - rewrite Hmrr, Hmrr'. unfold active_clients.
    destruct (total_filter_alter monthly_fee is_active
                (set_next_billing_date (now + timedelta_days 30)) (clients d) client_id c Hc)
      as [Hsum _].
    rewrite !filter_cons, !filter_nil in Hsum.
    destruct (decide (is_active c)) as [Ha|Ha],
      (decide (is_active (set_next_billing_date (now + timedelta_days 30) c))) as [Hb|Hb];
      try (by destruct Ha); try (by destruct Hb);
      rewrite ?total_cons in Hsum; simpl in Hsum |- *; lra.
Qed.

Lemma create_invoice_bills_monthly_fee_witness :
  ∃ r d', create_invoice acme_db "ACME0001" None "INV-0001" 100 101 = (Returned (Some r), d')
    ∧ r_amount r = 29
    ∧ pending_amount (get_subscription_revenue d' 0)
      == pending_amount (get_subscription_revenue acme_db 0) + 29.
Proof.
  eexists _, _. split; [reflexivity|].
  destruct (create_invoice_bills_monthly_fee acme_db "ACME0001" None "INV-0001" 100 101
              _ _ 0 (ex_intro _ acme_calls eq_refl) eq_refl)
    as (c & _ & _ & _ & _ & _ & Hpending & _).
  split; [reflexivity | exact Hpending].
Defined.

(** *** Grouping *)

Lemma total_fmap {A B} (f : A → B) (col : B → Q) l :
  total col (f <$> l) = total (col ∘ f) l.
Proof. induction l as [|x l IH]; [done|]. rewrite fmap_cons, !total_cons. by rewrite IH. Qed.

Lemma total_ext {A} (f g : A → Q) l :
  (∀ x, x ∈ l → f x == g x) → total f l == total g l.
Proof.
  induction l as [|x l IH]; intros Hall; [done|]. rewrite !total_cons.
  rewrite (Hall x) by left. rewrite IH; [done|]. intros y Hy. apply Hall. by right.
Qed.

Lemma total_plus {A} (f g : A → Q) l :
  total (λ x, f x + g x) l == total f l + total g l.
Proof. induction l as [|x l IH]; [done|]. rewrite !total_cons, IH. ring. Qed.

Lemma total_indicator `{EqDecision K} (k0 : K) (c : Q) ks :
  NoDup ks →
  total (λ k, if decide (k0 = k) then c else 0) ks == (if decide (k0 ∈ ks) then c else 0).
Proof.
  induction 1 as [|k ks Hk _ IH]; [done|]. rewrite total_cons, IH.
  destruct (decide (k0 = k)) as [->|Hne].
  - rewrite (decide_False (P := k ∈ ks)) by done.
    rewrite (decide_True (P := k ∈ k :: ks)) by left. ring.
  - destruct (decide (k0 ∈ ks)) as [Hin|Hin].
    + rewrite (decide_True (P := k0 ∈ k :: ks)) by (by right). ring.
    + rewrite (decide_False (P := k0 ∈ k :: ks)); [ring|].
      by intros [?|?]%elem_of_cons.
Qed.

(** GROUP BY: the sums of the groups add up to the sum of the rows. *)
Lemma total_groups {A} `{EqDecision K} (key : A → K) (col : A → Q) l ks :
  NoDup ks → (∀ x, x ∈ l → key x ∈ ks) →
  total (λ k, total col (filter (λ x, key x = k) l)) ks == total col l.
Proof.
  intros Hks. induction l as [|x l IH]; intros Hall.
  - clear Hks Hall. induction ks as [|k ks IHks]; [done|]. rewrite total_cons, IHks. done.
  - pose proof (total_indicator (key x) (col x) ks Hks) as Hind.
    rewrite (decide_True (P := key x ∈ ks)) in Hind by (apply Hall; left).
    transitivity (total (λ k, (if decide (key x = k) then col x else 0)
                              + total col (filter (λ y, key y = k) l)) ks).
    + apply total_ext. intros k _. rewrite filter_cons.
      destruct (decide (key x = k)); [by rewrite total_cons|ring].
    + rewrite total_plus, Hind, IH, total_cons; [done|].
      intros y Hy. apply Hall. by right.
Qed.

Lemma total_const {A} (col : A → Q) (c : Q) l :
  (∀ x, x ∈ l → col x = c) → total col l == inject_Z (Z.of_nat (length l)) * c.
Proof.
  induction l as [|x l IH]; intros Hall; [simpl; ring|].
  rewrite total_cons, IH, (Hall x) by (try left; intros y Hy; apply Hall; by right).
  cbn [length]. rewrite Nat2Z.inj_succ. unfold Z.succ. rewrite inject_Z_plus.
  change (inject_Z 1) with 1. ring.
Qed.

(** X10. The tier breakdown of the revenue report lists every tier that
    has an active client once, and no other tier.  In a reachable database
    the revenue of a group is the number of its clients times the monthly
    fee of the tier, and the revenues of the groups add up to the monthly
    recurring revenue of the same report. *)
Theorem tier_breakdown_adds_up_to_mrr d month_start :
  HQ.reachable d →
  let r := get_subscription_revenue d month_start in
  total group_revenue (rev_tier_breakdown r) == mrr r
  ∧ NoDup (group_tier <$> rev_tier_breakdown r)
  ∧ (∀ t, t ∈ group_tier <$> rev_tier_breakdown r
          ↔ ∃ id c, clients d !! id = Some c ∧ is_active c ∧ subscription_tier c = t)
  ∧ (∀ g, g ∈ rev_tier_breakdown r →
       (0 < group_count g)%Z
       ∧ group_revenue g == inject_Z (group_count g) * get_monthly_fee (group_tier g)).
Proof.
  intros Hreach. destruct (revenue_exact d month_start Hreach) as (Hmrr & _).
  pose proof (reachable_pricing_inv d Hreach) as Hprice.
  simpl in *. unfold tier_breakdown.
  assert (Htiers : ∀ t, t ∈ remove_dups (subscription_tier <$> active_clients d)
            ↔ ∃ id c, clients d !! id = Some c ∧ is_active c ∧ subscription_tier c = t).
  { intros t. rewrite elem_of_remove_dups, list_elem_of_fmap. unfold active_clients. split.
    - intros (c & -> & [Hact [id Hc]%elem_of_rows]%list_elem_of_filter). by exists id, c.
    - intros (id & c & Hc & Hact & <-). exists c. split; [done|].
      apply list_elem_of_filter. split; [done|]. apply elem_of_rows. by exists id. }
  split_and!.
  - rewrite Hmrr, total_fmap. simpl.
    apply (total_groups subscription_tier monthly_fee (active_clients d)).
    + apply NoDup_remove_dups.
    + intros c Hc. apply elem_of_remove_dups, list_elem_of_fmap. by exists c.
  - rewrite <- list_fmap_compose. simpl. rewrite list_fmap_id. apply NoDup_remove_dups.
  - intros t. rewrite <- list_fmap_compose. simpl. rewrite list_fmap_id. apply Htiers.
  - intros g (t & -> & Ht)%list_elem_of_fmap. simpl.
    apply Htiers in Ht as (id & c & Hc & Hact & Htier). split.
    + unfold count_where.
      assert (Hin : c ∈ filter (λ c, subscription_tier c = t) (active_clients d)).
      { apply list_elem_of_filter. split; [done|]. apply list_elem_of_filter.
        split; [done|]. apply elem_of_rows. by exists id. }
      destruct (filter _ (active_clients d));
        [by apply not_elem_of_nil in Hin | simpl; lia].
    + unfold count_where. apply total_const.
      intros c' [<- [_ [id' Hc']%elem_of_rows]%list_elem_of_filter]%list_elem_of_filter.
      by destruct (Hprice id' c' Hc') as [_ ->].
Qed.

Lemma tier_breakdown_adds_up_to_mrr_witness :
  total group_revenue (rev_tier_breakdown (get_subscription_revenue midas_db 0))
  == mrr (get_subscription_revenue midas_db 0).
Proof.
  destruct (tier_breakdown_adds_up_to_mrr midas_db 0 (ex_intro _ midas_calls eq_refl))
    as [Hsum _].
  exact Hsum.
Defined.

(** *** Listings *)

#[local] Instance by_created_at_total : Total by_created_at.
Proof. intros a b. unfold by_created_at. lia. Qed.

#[local] Instance by_created_at_trans : Transitive by_created_at.
Proof. intros a b c. unfold by_created_at. lia. Qed.

#[local] Instance latest_first_total : Total latest_first.
Proof. intros a b. unfold latest_first. lia. Qed.

#[local] Instance latest_first_trans : Transitive latest_first.
Proof. intros a b c. unfold latest_first. lia. Qed.

#[local] Instance by_volume_desc_total : Total by_volume_desc.
Proof.
  intros a b. unfold by_volume_desc. rewrite !Qle_bool_iff.
  destruct (Qlt_le_dec (total_volume a) (total_volume b)); [right|left]; lra.
Qed.

#[local] Instance by_volume_desc_trans : Transitive by_volume_desc.
Proof. intros a b c. unfold by_volume_desc. rewrite !Qle_bool_iff. lra. Qed.

(** An inner join that finds a partner for every row keeps every row. *)
Lemma fmap_filter_omap {A B C} (f : A → option B) (h : B → C) (k : A → C)
    (P : C → Prop) `{!∀ x, Decision (P x)} (l : list A) :
  (∀ x, x ∈ l → ∃ y, f x = Some y ∧ h y = k x) →
  h <$> filter (λ y, P (h y)) (omap f l) = filter P (k <$> l).
Proof.
  induction l as [|x l IH]; intros Hall; [done|].
  destruct (Hall x) as (y & Hy & Hk); [left|].
  change (omap f (x :: l)) with (match f x with Some y => y :: omap f l | None => omap f l end).
  rewrite Hy, fmap_cons, !filter_cons, <- Hk.
  destruct (decide (P (h y))); rewrite ?fmap_cons, IH; try done;
    intros z Hz; apply Hall; by right.
Qed.

Lemma elem_of_join_client d row :
  row ∈ omap (join_client d) (map_to_list (subscription_invoices d)) ↔
    subscription_invoices d !! row_invoice_id row = Some (row_invoice row)
    ∧ ∃ c, clients d !! inv_client_id (row_invoice row) = Some c
           ∧ row_client_name row = name c ∧ row_client_email row = HQ.email c.
Proof.
  rewrite list_elem_of_omap. unfold join_client. split.
  - intros ([id i] & Hin%elem_of_map_to_list & Hjoin). simpl in Hjoin.
    destruct (clients d !! inv_client_id i) as [c|] eqn:Hc; simplify_eq/=. eauto.
  - intros (Hi & c & Hc & Hname & Hemail). exists (row_invoice_id row, row_invoice row).
    split; [by apply elem_of_map_to_list|]. simpl. rewrite Hc. simpl.
    destruct row; simpl in *. by subst.
Qed.

(** X11. In a reachable database the list of pending invoices holds every
    pending invoice once, each with the name and e-mail of its client, and
    no other invoice; it is in the order of creation, oldest first; and
    its length and its amounts are the pending count and the pending amount
    of the revenue report. *)
Theorem pending_invoices_listed_oldest_first d month_start :
  HQ.reachable d →
  let listed := get_pending_invoices d in
  StronglySorted by_created_at listed
  ∧ row_invoice <$> listed ≡ₚ filter is_pending (rows (subscription_invoices d))
  ∧ (∀ row, row ∈ listed ↔
       subscription_invoices d !! row_invoice_id row = Some (row_invoice row)
       ∧ is_pending (row_invoice row)
       ∧ ∃ c, clients d !! inv_client_id (row_invoice row) = Some c
              ∧ row_client_name row = name c ∧ row_client_email row = HQ.email c)
  ∧ Z.of_nat (length listed) = pending_invoices (get_subscription_revenue d month_start)
  ∧ total (λ row, inv_amount (row_invoice row)) listed
    == pending_amount (get_subscription_revenue d month_start).
Proof.
  intros Hreach. pose proof (reachable_views_inv d Hreach) as Hinv.
  destruct (revenue_exact d month_start Hreach) as (_ & _ & Hpen & _).
  simpl in *. unfold get_pending_invoices.
  assert (Hperm : row_invoice <$> merge_sort by_created_at
            (filter (λ r, is_pending (row_invoice r))
               (omap (join_client d) (map_to_list (subscription_invoices d))))
          ≡ₚ filter is_pending (rows (subscription_invoices d))).
  { rewrite merge_sort_Permutation. unfold rows.
    rewrite (fmap_filter_omap (join_client d) row_invoice snd is_pending); [done|].
    intros [id i] Hin%elem_of_map_to_list. unfold join_client. simpl.
    destruct (invoice_client d Hinv id i Hin) as [c ->]. simpl. eauto. }
  split_and!.
  - apply (StronglySorted_merge_sort _).
  - done.
  - intros row. rewrite merge_sort_Permutation, list_elem_of_filter, elem_of_join_client.
    tauto.
  - unfold count_where. by rewrite <- Hperm, length_fmap.
  - rewrite Hpen, <- Hperm, total_fmap. done.
Qed.

Lemma pending_invoices_listed_oldest_first_witness :
  ∃ d, d = HQ.run acme_db [CreateInvoice "ACME0001" None "INV-0001" 100 101;
                           CreateInvoice "ACME0001" None "INV-0002" 102 103;
                           MarkInvoicePaid "INV-0001" "stripe" 104]
    ∧ row_invoice <$> get_pending_invoices d
      ≡ₚ filter is_pending (rows (subscription_invoices d)).
Proof.
  eexists. split; [reflexivity|].
  destruct (pending_invoices_listed_oldest_first _ 0
              (reachable_run acme_db
                 [CreateInvoice "ACME0001" None "INV-0001" 100 101;
                  CreateInvoice "ACME0001" None "INV-0002" 102 103;
                  MarkInvoicePaid "INV-0001" "stripe" 104]
                 (ex_intro _ acme_calls eq_refl)))
    as (_ & Hperm & _).
  exact Hperm.
Defined.

Lemma elem_of_join_sale d row :
  row ∈ omap (join_sale d) (map_to_list (sales d)) ↔
    sales d !! row_sale_id row = Some (row_sale row)
    ∧ ∃ c, clients d !! sale_client_id (row_sale row) = Some c
           ∧ row_sale_client_name row = name c.
Proof.
  rewrite list_elem_of_omap. unfold join_sale. split.
  - intros ([id x] & Hin%elem_of_map_to_list & Hjoin). simpl in Hjoin.
    destruct (clients d !! sale_client_id x) as [c|] eqn:Hc; simplify_eq/=. eauto.
  - intros (Hs & c & Hc & Hname). exists (row_sale_id row, row_sale row).
    split; [by apply elem_of_map_to_list|]. simpl. rewrite Hc. simpl.
    destruct row; simpl in *. by subst.
Qed.

(** X12. The list of recent sales is in the order of the time of sale,
    latest first, and holds at most [limit] rows when the limit is not
    negative and every row of the join when it is.  A row that is listed is
    a stored sale with the name of its client; a sale whose client id names
    no client is never listed; and no sale that is left out is later than
    one that is listed. *)
Theorem recent_sales_are_the_latest d limit :
  let joined := omap (join_sale d) (map_to_list (sales d)) in
  let listed := get_recent_sales d limit in
  StronglySorted latest_first listed
  ∧ length listed
    = (if decide (limit < 0)%Z then length joined
       else Nat.min (Z.to_nat limit) (length joined))
  ∧ (∃ left_out, listed ++ left_out ≡ₚ joined
       ∧ ∀ a b, a ∈ listed → b ∈ left_out → latest_first a b)
  ∧ (∀ row, row ∈ listed →
       sales d !! row_sale_id row = Some (row_sale row)
       ∧ ∃ c, clients d !! sale_client_id (row_sale row) = Some c
              ∧ row_sale_client_name row = name c)
  ∧ (∀ id s, sales d !! id = Some s → clients d !! sale_client_id s = None →
       s ∉ row_sale <$> listed).
Proof.
  simpl. unfold get_recent_sales.
  set (joined := omap (join_sale d) (map_to_list (sales d))).
  pose proof (StronglySorted_merge_sort latest_first joined) as Hsorted.
  pose proof (merge_sort_Permutation latest_first joined) as Hperm.
  set (sorted := merge_sort latest_first joined) in *.
  assert (Hsub : ∀ row, row ∈ sql_limit limit sorted → row ∈ joined).
  { intros row Hrow. rewrite <- Hperm. unfold sql_limit in Hrow.
    destruct (decide (limit < 0)%Z); [done|]. by eapply subseteq_take. }
  split_and!.
  - unfold sql_limit. destruct (decide _); [done|].
    rewrite <- (take_drop (Z.to_nat limit) sorted) in Hsorted.
    by apply StronglySorted_app_1_l in Hsorted.
  - unfold sql_limit. destruct (decide _); [by rewrite Hperm|].
    by rewrite length_take, Hperm.
  - unfold sql_limit. destruct (decide _).
    + exists []. rewrite app_nil_r. split; [done|]. by intros a b _ ?%not_elem_of_nil.
    + exists (drop (Z.to_nat limit) sorted). rewrite take_drop. split; [done|].
      intros a b Ha Hb. rewrite <- (take_drop (Z.to_nat limit) sorted) in Hsorted.
      by apply (StronglySorted_app_1_elem_of _ _ _ a b Hsorted).
  - intros row Hrow%Hsub. by apply elem_of_join_sale.
  - intros id s Hs Hnone (row & -> & Hrow%Hsub)%list_elem_of_fmap.
    apply elem_of_join_sale in Hrow as (_ & c & Hc & _). congruence.
Qed.



(** *** The store behind the routes *)

Lemma step_client_kept d c id :
  is_Some (clients d !! id) → is_Some (clients (HQ.step d c) !! id).
Proof.
  intros Hid.
  destruct c as [nm em tier loc ph nt cid key created last| | | | |cid new_tier|]; simpl.
  - unfold register_client. destruct (_ || _); simpl; [done|].
    apply lookup_insert_is_Some'. by right.
  - by apply lookup_alter_is_Some.
  - unfold record_sale. by case_bool_decide.
  - unfold create_invoice. destruct (clients d !! client_id); [|done].
    case_bool_decide; simpl; [done|]. by apply lookup_alter_is_Some.
  - done.
  - unfold change_client_tier. destruct (TIERS !! new_tier); simpl; [|done].
    by apply lookup_alter_is_Some.
  - unfold generate_monthly_invoices.
    apply (create_invoices_preserves (λ d, is_Some (clients d !! id))); [|done].
    intros d0 client_id tier invoice_id now created Hd0. unfold create_invoice.
    destruct (clients d0 !! client_id); [|done].
    case_bool_decide; simpl; [done|]. by apply lookup_alter_is_Some.
Qed.

(** The lookup by key and the sale route act on the database as calls of
    the core do. *)
Lemma get_client_by_api_key_run d key now :
  ∃ cs, (get_client_by_api_key d key now).2 = HQ.run d cs.
Proof.
  unfold get_client_by_api_key. destruct (head (key_holders d key)) as [[id row]|].
  - by exists [UpdateLastSeen id now].
  - by exists [].
Qed.

Lemma phone_home_sale_run d key now deck fmt n v cards sale_id sold :
  ∃ cs, (phone_home_sale d key now deck fmt n v cards sale_id sold).2 = HQ.run d cs.
Proof.
  unfold phone_home_sale. destruct (negb (truthy key)); [by exists []|].
  unfold get_client_by_api_key. destruct (head (key_holders d key)) as [[id row]|];
    [|by exists []].
  destruct v as [g|]; [|by exists [UpdateLastSeen id now]].
  exists [UpdateLastSeen id now; RecordSale id deck fmt n g cards sale_id sold].
  simpl. by destruct (record_sale _ _ _ _ _ _ _ _ _) as [[r|e] d2].
Qed.

Lemma record_scans_ids s client_id entries clock k ok s' :
  record_scans s client_id entries clock k = (ok, s') →
  ∃ new, scans s' = scans s ++ new
    ∧ scan_id <$> new = (λ n : nat, (seq_scans s + Z.of_nat (S n))%Z) <$> seq 0 (length new).
Proof.
  revert s k. induction entries as [|e entries IH]; intros s k; simpl.
  - intros [= <- <-]. exists []. by rewrite app_nil_r.
  - destruct (entry_floats e) as [[price confidence]|].
    + intros (new & Hnew & Hids)%IH. simpl in *.
      eexists (_ :: new). rewrite Hnew, <- app_assoc. split; [done|].
      cbn [length seq]. rewrite !fmap_cons, Hids. cbn [scan_id]. f_equal.
      rewrite <- fmap_S_seq, <- list_fmap_compose. apply list_fmap_ext.
      intros i x _. simpl. lia.
    + intros [= <- <-]. exists []. by rewrite app_nil_r.
Qed.

Lemma run_client_kept d cs id :
  is_Some (clients d !! id) → is_Some (clients (HQ.run d cs) !! id).
Proof.
  apply (run_preserves (λ d, is_Some (clients d !! id))).
  intros d0 c. apply step_client_kept.
Qed.

(** A route that authenticates and then records scans keeps [store_inv]. *)
Lemma scan_route_store_inv s key now entries clock :
  store_inv s →
  store_inv
    (match get_client_by_api_key (core s) key now with
     | (None, d1) => with_core s d1
     | (Some (client_id, _), d1) => (record_scans (with_core s d1) client_id entries clock 0).2
     end).
Proof.
  intros [Hcore Hdis Hids Hseq Hcl].
  destruct (get_client_by_api_key_run (core s) key now) as [cs Hrun].
  destruct (get_client_by_api_key (core s) key now) as [[[id row]|] d1] eqn:Hget;
    simpl in Hrun; subst d1.
  - destruct (record_scans _ id entries clock 0) as [ok s'] eqn:Hloop. simpl.
    destruct (record_scans_spec _ _ _ _ _ _ _ Hloop)
      as (Hcore' & Hdis' & new & Hnew & Hseq' & Hown & _).
    destruct (record_scans_ids _ _ _ _ _ _ _ Hloop) as (new' & Hnew' & Hids').
    simpl in *. rewrite Hnew in Hnew'. apply app_inv_head in Hnew'. subst new'.
    assert (Hid : is_Some (clients (core s) !! id)).
    { unfold get_client_by_api_key in Hget.
      destruct (head (key_holders (core s) key)) as [[id' row']|] eqn:Hhd; [|done].
      injection Hget as -> -> _. apply head_Some_elem_of in Hhd.
      apply elem_of_key_holders in Hhd as [-> _]. done. }
    split.
    + rewrite Hcore'. by apply reachable_run.
    + by rewrite Hdis'.
    + rewrite Hnew, fmap_app, length_app, seq_app, fmap_app, Hids, Hids'. f_equal.
      rewrite Hseq, (Nat.add_comm 0 (length (scans s))).
      rewrite <- (fmap_add_seq (length (scans s))), <- list_fmap_compose.
      apply list_fmap_ext. intros i x _. simpl. lia.
    + rewrite Hseq', Hnew, length_app, Hseq. lia.
    + intros sc. rewrite Hnew, Hcore'. simpl.
      intros [Hsc|Hsc]%elem_of_app; apply run_client_kept; [by apply Hcl|].
      rewrite Forall_forall in Hown. by rewrite (Hown sc Hsc).
  - split; simpl; try done.
    + by apply reachable_run.
    + intros sc Hsc. apply run_client_kept. by apply Hcl.
Qed.

Lemma store_step_inv s c : store_inv s → store_inv (store_step s c).
Proof.
  intros Hinv. pose proof Hinv as [Hcore Hdis Hids Hseq Hcl].
  destruct c as [c|key now deck fmt n v cards sale_id sold|key now entry scanned
                 |key now entries clock]; simpl.
  - split; simpl; try done.
    + by apply (reachable_run (core s) [c]).
    + intros sc Hsc. apply step_client_kept. by apply Hcl.
  - destruct (phone_home_sale_run (core s) key now deck fmt n v cards sale_id sold)
      as [cs ->].
    split; simpl; try done.
    + by apply reachable_run.
    + intros sc Hsc. apply run_client_kept. by apply Hcl.
  - unfold phone_home_scan. destruct (negb (truthy key)); [done|].
    pose proof (scan_route_store_inv s key now [entry] (λ _, scanned) Hinv) as Hroute.
    destruct (get_client_by_api_key (core s) key now) as [[[id row]|] d1]; [|done].
    by destruct (record_scans _ id [entry] _ 0) as [[] s'].
  - unfold phone_home_batch_scans. destruct (negb (truthy key)); [done|].
    pose proof (scan_route_store_inv s key now entries clock Hinv) as Hroute.
    destruct (get_client_by_api_key (core s) key now) as [[[id row]|] d1]; [|done].
    by destruct (record_scans _ id entries _ 0) as [[] s'].
Qed.

Lemma store_reachable_inv s : store_reachable s → store_inv s.
Proof.
  intros [cs ->]. unfold store_run.
  assert (Hinit : store_inv init_store).
  { split; simpl; try done; [by exists [] | by intros sc ?%not_elem_of_nil]. }
  revert Hinit. generalize init_store.
  induction cs as [|c cs IH]; intros s0 Hs0; [done|]. simpl. by apply IH, store_step_inv.
Qed.

Lemma length_filter_le_imp {A} (P R : A → Prop)
    `{!∀ x, Decision (P x), !∀ x, Decision (R x)} (l : list A) :
  (∀ x, P x → R x) → length (filter P l) ≤ length (filter R l).
Proof.
  intros Himp. induction l as [|x l IH]; [done|]. rewrite !filter_cons.
  destruct (decide (P x)) as [HP|HP], (decide (R x)) as [HR|HR]; simpl; try lia.
  destruct HR. by apply Himp.
Qed.

Lemma filter_all {A} (P : A → Prop) `{!∀ x, Decision (P x)} (l : list A) :
  (∀ x, x ∈ l → P x) → filter P l = l.
Proof.
  induction l as [|x l IH]; intros Hall; [done|].
  rewrite filter_cons_True by (apply Hall; left).
  rewrite IH; [done|]. intros y Hy. apply Hall. by right.
Qed.



(** X15. On the server driven through its routes and the calls of the
    billing core, every scan in the table was recorded for a client that is
    registered, and the scans carry the ids 1, 2, 3, ... in the order of
    their arrival, so that no two scans share an id. *)
Theorem scans_belong_to_registered_clients s :
  store_reachable s →
  (∀ sc, sc ∈ scans s → is_Some (clients (core s) !! scan_client_id sc))
  ∧ scan_id <$> scans s = (λ n : nat, Z.of_nat (S n)) <$> seq 0 (length (scans s))
  ∧ NoDup (scan_id <$> scans s).
Proof.
  intros [_ _ Hids _ Hcl]%store_reachable_inv. split_and!; [done..|].
  rewrite Hids. apply NoDup_fmap_2; [|apply NoDup_seq]. intros i j. lia.
Qed.

Lemma scans_belong_to_registered_clients_witness :
  scan_id <$> scans shop_store = [1%Z; 2%Z]
  ∧ Forall (λ sc, is_Some (clients (core shop_store) !! scan_client_id sc)) (scans shop_store).
Proof.
  destruct (scans_belong_to_registered_clients shop_store (ex_intro _ shop_calls eq_refl))
    as (Hcl & Hids & _).
  split; [by rewrite Hids|]. by apply Forall_forall.
Defined.

(** *** The monthly billing run *)



End HQViewsFacts.

(** ** Accounts and statistics of the portal *)

Section PortalViewsFacts.
Import Portal PortalViews.

Ltac by_license l Hl :=
  unfold licensed;
  match goal with
  | |- context [require_license ?d ?key ?now] =>
      destruct (require_license d key now) as [|l] eqn:Hl; [done|]
  end.

(** *** The invariants hold in every reachable database *)

Lemma NoDup_fmap_alt {A B} (g : A → B) (l : list A) :
  NoDup (g <$> l) ↔ ∀ i j x y, l !! i = Some x → l !! j = Some y → g x = g y → i = j.
Proof.
  rewrite NoDup_alt. split.
  - intros Hnd i j x y Hi Hj Heq. apply (Hnd i j (g x)).
    + by rewrite list_lookup_fmap, Hi.
    + by rewrite list_lookup_fmap, Hj, Heq.
  - intros Hnd i j b. rewrite !list_lookup_fmap.
    destruct (l !! i) as [x|] eqn:Hi; [|done]. destruct (l !! j) as [y|] eqn:Hj; [|done].
    simpl. intros [= <-] [= Heq]. by apply (Hnd i j x y).
Qed.

Lemma NoDup_fmap_snoc {A B} (g : A → B) (l : list A) x :
  NoDup (g <$> l) → (∀ y, y ∈ l → g y ≠ g x) → NoDup (g <$> l ++ [x]).
Proof.
  intros Hnd Hnew. rewrite fmap_app. apply NoDup_app.
  split_and!; [done| |apply NoDup_singleton].
  intros b (y & -> & Hy)%list_elem_of_fmap Heq%list_elem_of_singleton. by apply (Hnew y).
Qed.

Lemma init_db_account_inv : account_inv init_db.
Proof. split; simpl; try (intros ? []%not_elem_of_nil); try constructor. Qed.

Lemma init_db_wallet_inv : wallet_inv init_db.
Proof. split; simpl; try (intros ? []%not_elem_of_nil); done. Qed.

Lemma register_account_inv d email password shop key lkey :
  account_inv d → account_inv (register d email password shop key lkey).2.
Proof.
  intros [Hu Hui Hsk Hlk Hstd Hlu Hcl]. unfold register.
  destruct (_ || _); [by split|].
  destruct (_ || _) eqn:Hdup; [by split|].
  apply orb_false_iff in Hdup as [[[_ Hkey]%orb_false_iff Hlkey]%orb_false_iff _].
  apply bool_decide_eq_false in Hkey. apply bool_decide_eq_false in Hlkey.
  rewrite Exists_exists in Hkey. rewrite Exists_exists in Hlkey. split; simpl.
  - apply NoDup_fmap_snoc; [done|]. intros u Hin. specialize (Hui u Hin). simpl. lia.
  - intros u [Hin| ->%list_elem_of_singleton]%elem_of_app; simpl; [|lia].
    specialize (Hui u Hin). lia.
  - apply NoDup_fmap_snoc; [done|]. intros u Hin Heq. apply Hkey. eauto.
  - apply NoDup_fmap_snoc; [done|]. intros l Hin Heq. apply Hlkey. eauto.
  - intros l [Hin| ->%list_elem_of_singleton]%elem_of_app; [by apply Hstd|done].
  - by rewrite !fmap_app, Hlu.
  - intros c Hc. destruct (Hcl c Hc) as (l & Hl & Heq). exists l.
    split; [|done]. apply elem_of_app. by left.
Qed.

Lemma register_wallet_inv d email password shop key lkey :
  wallet_inv d → wallet_inv (register d email password shop key lkey).2.
Proof.
  intros [Hw Hnw Hcov Hkinds Hids Hseq]. unfold register.
  destruct (_ || _); [by split|]. destruct (_ || _); [by split|].
  split; simpl; try done.
  - intros l [Hin| ->%list_elem_of_singleton]%elem_of_app;
      rewrite fmap_app; apply elem_of_app; [left; by apply Hw|right; simpl; left].
  - intros w [Hin| ->%list_elem_of_singleton]%elem_of_app; [by apply Hnw|done].
  - intros w [Hin| ->%list_elem_of_singleton]%elem_of_app; [by apply Hcov|]. simpl. lra.
Qed.

Lemma validate_license_account_inv d l v :
  account_inv d → l ∈ licenses d → account_inv (validate_license d l v).2.
Proof.
  intros [Hu Hui Hsk Hlk Hstd Hlu Hcl] Hl. unfold validate_license.
  destruct (existing d (lic_id l) (machine_id v)) as [e|]; simpl.
  - split; simpl; try done.
    intros c (x & Hx & [[_ ->]|[_ ->]])%elem_of_update_where; simpl; by apply Hcl.
  - case_bool_decide; simpl; [by split|]. split; simpl; try done.
    intros c [Hc| ->%list_elem_of_singleton]%elem_of_app; [by apply Hcl|].
    by exists l.
Qed.

Lemma with_wallets_account_inv d ws seq txs seq_tx :
  account_inv d → account_inv (with_wallets d ws seq txs seq_tx).
Proof. intros []. by split. Qed.

Lemma with_clients_wallet_inv d cs seq :
  wallet_inv d → wallet_inv (Portal.with_clients d cs seq).
Proof. intros []. by split. Qed.

Lemma regenerate_station_key_account_inv d l new_key :
  account_inv d → account_inv (regenerate_station_key d l new_key).2.
Proof.
  intros [Hu Hui Hsk Hlk Hstd Hlu Hcl]. unfold regenerate_station_key.
  destruct (license_user_id d l) as [uid|]; [|by split].
  case_bool_decide as Hheld; [by split|]. rewrite Exists_exists in Hheld.
  assert (Hids : usr_id <$> update_where (λ u, usr_id u = uid)
                   (set_station_api_key new_key) (users d) = usr_id <$> users d)
    by (by apply update_where_fmap_stable).
  split; simpl; try done.
  - by rewrite Hids.
  - intros u (x & Hx & [[_ ->]|[_ ->]])%elem_of_update_where; simpl; by apply Hui.
  - unfold update_where. rewrite <- list_fmap_compose. apply NoDup_fmap_alt.
    intros i j x y Hi Hj. simpl.
    destruct (decide (usr_id x = uid)) as [Hx|Hx], (decide (usr_id y = uid)) as [Hy|Hy];
      simpl.
    + intros _. apply (proj1 (NoDup_fmap_alt usr_id (users d)) Hu i j x y Hi Hj).
      congruence.
    + intros Heq. destruct Hheld. exists y. split; [by eapply list_elem_of_lookup_2|done].
    + intros Heq. destruct Hheld. exists x. split; [by eapply list_elem_of_lookup_2|done].
    + by apply (proj1 (NoDup_fmap_alt usr_station_api_key (users d)) Hsk i j x y).
  - by rewrite Hids.
Qed.

Lemma step_account_inv env d c : account_inv d → account_inv (step env d c).2.
Proof.
  intros Hinv. destruct c; simpl.
  - by apply register_account_inv.
  - by_license l Hl.
    apply validate_license_account_inv; [done|]. by eapply require_license_elem.
  - by_license l Hl.
    unfold get_wallet. repeat case_match; simplify_eq/=;
      auto using with_wallets_account_inv.
  - by_license l Hl.
    unfold update_payout_settings. repeat case_match; simplify_eq/=;
      auto using with_wallets_account_inv.
  - by_license l Hl.
    unfold request_withdrawal. repeat case_match; simplify_eq/=;
      auto using with_wallets_account_inv.
  - destruct (require_admin env _); [|done].
    unfold credit_wallet. repeat case_match; simplify_eq/=;
      auto using with_wallets_account_inv.
  - by_license l Hl. by apply regenerate_station_key_account_inv.
Qed.

Lemma get_wallet_wallet_inv d l : wallet_inv d → wallet_inv (get_wallet d l).2.
Proof.
  intros [Hw Hnw Hcov Hkinds Hids Hseq]. unfold get_wallet.
  destruct (license_user_id d l) as [uid|]; [|by split].
  destruct (wallet_of_user d uid) as [w|]; [by split|].
  match goal with |- wallet_inv (match ?o with _ => _ end).2 =>
    destruct o; simpl end.
  all: split; simpl; try done.
  all: try (intros l' Hl'; rewrite fmap_app; apply elem_of_app; left; by apply Hw).
  all: intros y [Hin| ->%list_elem_of_singleton]%elem_of_app;
         [by (apply Hnw || apply Hcov)|simpl; done || lra].
Qed.

Lemma update_payout_settings_wallet_inv d l email method :
  wallet_inv d → wallet_inv (update_payout_settings d l email method).2.
Proof.
  intros [Hw Hnw Hcov Hkinds Hids Hseq]. unfold update_payout_settings.
  destruct (license_user_id d l) as [uid|]; [|by split].
  split; simpl; try done.
  - intros l' Hl'. rewrite update_where_fmap_stable by done. by apply Hw.
  - intros w (x & Hx & [[_ ->]|[_ ->]])%elem_of_update_where; simpl; by apply Hnw.
  - intros w (x & Hx & [[_ ->]|[_ ->]])%elem_of_update_where; simpl; by apply Hcov.
Qed.

(** A change of the balance of one wallet with its entry in the log. *)
Lemma post_wallet_inv d (P : wallet → Prop) `{!∀ x, Decision (P x)} f w t :
  wallet_inv d → w ∈ wallets d →
  (∀ x, x ∈ wallets d → P x → x = w) →
  (∀ x, wal_user_id (f x) = wal_user_id x) →
  (∀ x, wal_total_withdrawn (f x) = wal_total_withdrawn x
        ∧ wal_pending_balance (f x) = wal_pending_balance x) →
  wal_balance (f w) <= wal_total_earned (f w) →
  is_credit t ∨ is_withdrawal_request t →
  tx_id t = (seq_wallet_transactions d + 1)%Z →
  wallet_inv
    (with_wallets d (update_where P f (wallets d)) (seq_wallets d)
       (wallet_transactions d ++ [t]) (seq_wallet_transactions d + 1)).
Proof.
  intros [Hw Hnw Hcov Hkinds Hids Hseq] Hin HP Huser Hsame Hbal Hkind Hid.
  split; simpl.
  - intros l' Hl'. rewrite update_where_fmap_stable by done. by apply Hw.
  - intros y (x & Hx & [[_ ->]|[_ ->]])%elem_of_update_where; [|by apply Hnw].
    destruct (Hsame x) as [-> ->]. by apply Hnw.
  - intros y (x & Hx & [[Hp ->]|[_ ->]])%elem_of_update_where; [|by apply Hcov].
    by rewrite (HP x Hx Hp).
  - intros y [Hy| ->%list_elem_of_singleton]%elem_of_app; [by apply Hkinds|done].
  - rewrite fmap_app, length_app, seq_app, fmap_app, Hids. simpl. rewrite Hid, Hseq.
    do 2 f_equal. lia.
  - rewrite length_app, Hseq. simpl. lia.
Qed.

Lemma request_withdrawal_wallet_inv d l A :
  ledger_inv d → wallet_inv d → wallet_inv (request_withdrawal d l A).2.
Proof.
  intros Hled Hinv.
  destruct (request_withdrawal_cases d l A) as [->|(uid & w & Hu & Hw & Hpos & Hle)]; [done|].
  rewrite (request_withdrawal_success d l uid w A) by done. simpl.
  apply fetchone_Some in Hw as [Hw Hwu].
  apply (post_wallet_inv d _ _ w); simpl; try done.
  - intros x Hx Hxu. apply (NoDup_fmap_elem_inj wal_user_id (wallets d)); try done.
    + apply Hled.
    + congruence.
  - pose proof (earned_covers_balance d Hinv w Hw). lra.
  - right. split_and!; try done. simpl. lra.
Qed.

Lemma credit_wallet_wallet_inv d key A order_id description :
  ledger_inv d → wallet_inv d → wallet_inv (credit_wallet d key A order_id description).2.
Proof.
  intros Hled Hinv.
  destruct (credit_wallet_cases d key A order_id description)
    as [->|(u & w & Hkey & Hpos & Hu & Hw)]; [done|].
  rewrite (credit_wallet_success d key u w A) by done. simpl.
  apply fetchone_Some in Hw as [Hw Hwu].
  apply (post_wallet_inv d _ _ w); simpl; try done.
  - intros x Hx Hxu. apply (NoDup_fmap_elem_inj wal_id (wallets d)); try done. apply Hled.
  - pose proof (earned_covers_balance d Hinv w Hw). lra.
  - left. by split_and!.
Qed.

Lemma step_wallet_inv env d c :
  ledger_inv d → wallet_inv d → wallet_inv (step env d c).2.
Proof.
  intros Hled Hinv. destruct c; simpl.
  - by apply register_wallet_inv.
  - by_license l Hl.
    unfold validate_license. repeat case_match; simplify_eq/=;
      auto using with_clients_wallet_inv.
  - by_license l Hl. by apply get_wallet_wallet_inv.
  - by_license l Hl. by apply update_payout_settings_wallet_inv.
  - by_license l Hl. by apply request_withdrawal_wallet_inv.
  - destruct (require_admin env _); [|done]. by apply credit_wallet_wallet_inv.
  - by_license l Hl.
    unfold regenerate_station_key. destruct Hinv.
    repeat case_match; simplify_eq/=; by split.
Qed.

(** The invariants of the portal, together. *)
Lemma run_portal_inv env d cs :
  activation_inv d ∧ ledger_inv d ∧ account_inv d ∧ wallet_inv d →
  activation_inv (run env d cs) ∧ ledger_inv (run env d cs)
  ∧ account_inv (run env d cs) ∧ wallet_inv (run env d cs).
Proof.
  revert d. induction cs as [|c cs IH]; intros d (Hact & Hled & Hacc & Hwal); [done|].
  apply IH. split_and!.
  - by apply step_activation_inv.
  - by apply step_ledger_inv.
  - by apply step_account_inv.
  - by apply step_wallet_inv.
Qed.

Lemma reachable_portal_inv env d :
  reachable env d → activation_inv d ∧ ledger_inv d ∧ account_inv d ∧ wallet_inv d.
Proof.
  intros [cs ->]. apply run_portal_inv. split_and!.
  - apply init_db_activation_inv.
  - apply init_db_ledger_inv.
  - apply init_db_account_inv.
  - apply init_db_wallet_inv.
Qed.

Lemma reachable_portal_run env d cs : reachable env d → reachable env (run env d cs).
Proof.
  intros [cs0 ->]. exists (cs0 ++ cs). unfold run. by rewrite foldl_app.
Qed.

(** *** Lookups by a unique column *)

Lemma fetchone_unique {A} (P : A → Prop) `{!∀ x, Decision (P x)} (rows : list A) x :
  x ∈ rows → P x → (∀ y, y ∈ rows → P y → y = x) → fetchone P rows = Some x.
Proof.
  intros Hx HP Huniq. destruct (fetchone P rows) as [y|] eqn:Hy.
  - apply fetchone_Some in Hy as [Hy HPy]. f_equal. by apply Huniq.
  - by destruct (fetchone_None P rows x Hy).
Qed.

(** The licence that [require_license] hands to a handler, in a reachable
    database: it is a row of [licenses], its user is found by the handlers,
    and the user has a row in [users] and a wallet. *)
Lemma licensed_account env d key now l :
  reachable env d → require_license d key now = inr l →
  l ∈ licenses d
  ∧ license_user_id d l = Some (lic_user_id l)
  ∧ (∃ u, u ∈ users d ∧ usr_id u = lic_user_id l
          ∧ fetchone (λ u, usr_id u = lic_user_id l) (users d) = Some u)
  ∧ (∃ w, w ∈ wallets d ∧ wal_user_id w = lic_user_id l
          ∧ wallet_of_user d (lic_user_id l) = Some w).
Proof.
  intros (Hact & Hled & Hacc & Hwal)%reachable_portal_inv Hl%require_license_elem.
  split_and!; [done|..].
  - unfold license_user_id. rewrite (fetchone_unique _ _ l); try done.
    intros y Hy Heq. by apply (NoDup_fmap_elem_inj lic_id (licenses d)); [apply Hact|..].
  - assert (Hin : lic_user_id l ∈ usr_id <$> users d).
    { rewrite <- (lic_users d Hacc). apply list_elem_of_fmap. by exists l. }
    apply list_elem_of_fmap in Hin as (u & Hid & Hu). exists u. split_and!; try done.
    apply fetchone_unique; try done. intros y Hy Heq.
    apply (NoDup_fmap_elem_inj usr_id (users d)); try done; [apply Hacc|congruence].
  - pose proof (lic_has_wallet d Hwal l Hl) as Hin.
    apply list_elem_of_fmap in Hin as (w & Hid & Hw). exists w. split_and!; try done.
    apply fetchone_unique; try done. intros y Hy Heq.
    apply (NoDup_fmap_elem_inj wal_user_id (wallets d)); try done; [apply Hled|congruence].
Qed.

(** *** The wallet handlers on a reachable database *)



(** X18. For a licence that [require_license] accepts on a reachable
    database, [get_wallet] answers with the wallet of the licence's user
    and writes nothing: the wallet was created on registration, and the
    branch that inserts a missing wallet is never taken. *)
Theorem get_wallet_reads_only (NEXUS_SECRET : option string) d key now l :
  reachable NEXUS_SECRET d →
  require_license d key now = inr l →
  ∃ w, get_wallet d l = (WalletInfo w, d)
    ∧ w ∈ wallets d ∧ wal_user_id w = lic_user_id l
    ∧ (step NEXUS_SECRET d (GetWallet key now)).2 = d.
Proof.
  intros Hreach Hl.
  destruct (licensed_account _ d key now l Hreach Hl)
    as (_ & Hu & _ & w & Hin & Hid & Hw).
  exists w. unfold step, licensed, get_wallet. rewrite Hl, Hu, Hw. done.
Qed.

Lemma get_wallet_reads_only_witness :
  ∃ w, get_wallet seller_db seller_license = (WalletInfo w, seller_db)
    ∧ wal_user_id w = 1%Z.
Proof.
  destruct (get_wallet_reads_only None seller_db "NEXUS-0000AAAA-0000BBBB" 5 seller_license
              (ex_intro _ seller_calls eq_refl) eq_refl) as (w & Hcall & _ & Hid & _).
  exists w. split; [exact Hcall | exact Hid].
Defined.

(** X19. For a licence that [require_license] accepts on a reachable
    database, [update_payout_settings] rewrites the payout e-mail and
    method of the wallet of the licence's user and nothing else: the
    balance and the totals of that wallet, every other wallet, the log and
    the other tables stay as they are. *)
Theorem update_payout_settings_touches_only_payout (NEXUS_SECRET : option string)
    d key now l payout_email payout_method :
  reachable NEXUS_SECRET d →
  require_license d key now = inr l →
  ∃ w w' d',
    update_payout_settings d l payout_email payout_method = (PayoutUpdated, d')
    ∧ wallet_of_user d (lic_user_id l) = Some w
    ∧ wallet_of_user d' (lic_user_id l) = Some w'
    ∧ wal_payout_email w' = payout_email ∧ wal_payout_method w' = payout_method
    ∧ wal_id w' = wal_id w ∧ wal_balance w' = wal_balance w
    ∧ wal_total_earned w' = wal_total_earned w
    ∧ (∀ x, wal_user_id x ≠ lic_user_id l → x ∈ wallets d' ↔ x ∈ wallets d)
    ∧ wallet_transactions d' = wallet_transactions d
    ∧ users d' = users d ∧ licenses d' = licenses d ∧ clients d' = clients d.
Proof.
  intros Hreach Hl.
  destruct (licensed_account _ d key now l Hreach Hl)
    as (_ & Hu & _ & w & Hin & Hid & Hw).
  assert (Hreach' : reachable NEXUS_SECRET
            (step NEXUS_SECRET d (UpdatePayoutSettings key now payout_email payout_method)).2)
    by apply (reachable_portal_run _ d [UpdatePayoutSettings key now payout_email
                                          payout_method] Hreach).
  apply reachable_portal_inv in Hreach' as (_ & Hled' & _).
  unfold step, licensed in Hled'. rewrite Hl in Hled'.
  unfold update_payout_settings in *. rewrite Hu in *. simpl in Hled'.
  exists w, (set_payout payout_email payout_method w). eexists.
  split_and!; try done.
  - unfold wallet_of_user. simpl. apply fetchone_unique; try done.
    + apply elem_of_update_where. exists w. split; [done|]. by left.
    + intros y Hy Heq.
      apply (NoDup_fmap_elem_inj wal_user_id _ y _ (wal_users_unique _ Hled')); simpl;
        first [done | congruence
              | apply elem_of_update_where; exists w; split; [done|]; by left].
  - intros x Hx. simpl. rewrite elem_of_update_where. split.
    + intros (y & Hy & [[Heq ->]|[_ ->]]); [by destruct Hx|done].
    + intros Hin'. exists x. split; [done|]. by right.
Qed.

Lemma update_payout_settings_touches_only_payout_witness :
  ∃ w' d',
    update_payout_settings seller_db seller_license (Some "pay@example.com"%string) "bank"
    = (PayoutUpdated, d')
    ∧ wallet_of_user d' 1 = Some w'
    ∧ wal_payout_method w' = "bank"%string.
Proof.
  destruct (update_payout_settings_touches_only_payout None seller_db
              "NEXUS-0000AAAA-0000BBBB" 5 seller_license (Some "pay@example.com"%string)
              "bank" (ex_intro _ seller_calls eq_refl) eq_refl)
    as (w & w' & d' & Hcall & _ & Hw' & _ & Hmethod & _).
  exists w', d'. split; [exact Hcall|]. split; [exact Hw' | exact Hmethod].
Defined.

(** *** Licences and station keys *)

Lemma step_license_kept env d c l : l ∈ licenses d → l ∈ licenses (step env d c).2.
Proof.
  intros Hl. destruct c; simpl.
  - unfold register. repeat case_match; simpl; try done. apply elem_of_app. by left.
  - by_license l' Hl'. unfold validate_license. by repeat case_match.
  - by_license l' Hl'. unfold get_wallet. by repeat case_match.
  - by_license l' Hl'. unfold update_payout_settings. by repeat case_match.
  - by_license l' Hl'. unfold request_withdrawal. by repeat case_match.
  - destruct (require_admin env _); [|done]. unfold credit_wallet. by repeat case_match.
  - by_license l' Hl'. unfold regenerate_station_key. by repeat case_match.
Qed.

Lemma run_license_kept env d cs l : l ∈ licenses d → l ∈ licenses (run env d cs).
Proof.
  revert d. induction cs as [|c cs IH]; intros d Hl; [done|].
  apply IH. by apply step_license_kept.
Qed.

(** X20. A licence key that [register] has issued on a reachable database
    is accepted by [require_license] from then on, after any further calls
    and at any time: the licence belongs to the registered user, allows
    three activations and has no expiry date, and no handler of the portal
    deactivates or changes a licence. *)
Theorem issued_license_stays_valid (NEXUS_SECRET : option string)
    d email password shop station_key license_key user_id d' :
  reachable NEXUS_SECRET d →
  register d email password shop station_key license_key
  = (Registered user_id license_key station_key, d') →
  truthy license_key = true →
  ∀ cs now, ∃ l,
    require_license (run NEXUS_SECRET d' cs) license_key now = inr l
    ∧ lic_user_id l = user_id ∧ lic_max_activations l = 3%Z ∧ lic_expires_at l = None
    ∧ l ∈ licenses d'.
Proof.
  intros Hreach Hreg Hkey cs now.
  assert (Hreach' : reachable NEXUS_SECRET d').
  { replace d' with (step NEXUS_SECRET d
                       (Register email password shop station_key license_key)).2
      by (simpl; by rewrite Hreg).
    apply (reachable_portal_run _ d [Register email password shop station_key license_key]
             Hreach). }
  unfold register in Hreg. destruct (_ || _); [done|]. destruct (_ || _); [done|].
  injection Hreg as <- <-.
  set (l0 := {| lic_id := seq_licenses d + 1; lic_license_key := license_key;
                lic_user_id := seq_users d + 1; lic_expires_at := None;
                lic_is_active := true; lic_max_activations := 3 |}).
  match goal with |- context [run _ ?d1 cs] => set (d' := d1) in * end.
  assert (Hl0 : l0 ∈ licenses d')
    by (apply elem_of_app; right; by apply list_elem_of_singleton).
  pose proof (run_license_kept NEXUS_SECRET d' cs l0 Hl0) as Hin.
  destruct (reachable_portal_inv _ _ (reachable_portal_run _ d' cs Hreach'))
    as (_ & _ & Hacc & _).
  exists l0. split_and!; try done.
  unfold require_license. rewrite Hkey. simpl.
  rewrite (fetchone_unique _ _ l0); try done.
  intros y Hy [Heq _].
  by apply (NoDup_fmap_elem_inj lic_license_key _ y l0 (lic_keys_unique _ Hacc)).
Qed.

Lemma issued_license_stays_valid_witness :
  ∃ l, require_license ledger_db "NEXUS-0000AAAA-0000BBBB" 1000 = inr l
    ∧ lic_user_id l = 1%Z.
Proof.
  destruct (issued_license_stays_valid None init_db "seller@example.com" "secret"
              "Acme Cards" "nxs_seller" "NEXUS-0000AAAA-0000BBBB" 1 _
              (ex_intro _ [] eq_refl) eq_refl eq_refl
              [CreditWallet dev_admin_key "nxs_seller" 50 (Some "O1"%string) "Sale credit";
               RequestWithdrawal "NEXUS-0000AAAA-0000BBBB" 20 30] 1000)
    as (l & Hl & Hid & _).
  exists l. split; [exact Hl | exact Hid].
Defined.





(** *** Statistics *)

Lemma length_le_groups {A} (key : A → Z) (n : nat) (ks : list Z) (l : list A) :
  NoDup ks → (∀ x, x ∈ l → key x ∈ ks) →
  (∀ k, k ∈ ks → length (filter (λ x, key x = k) l) ≤ n) →
  length l ≤ n * length ks.
Proof.
  intros Hnd. revert l. induction Hnd as [|k ks Hk Hnd IH]; intros l Hall Hgroups.
  - destruct l as [|x l]; [simpl; lia|].
    destruct (not_elem_of_nil (key x)). apply Hall. left.
  - rewrite <- (filter_app_complement (λ x, key x = k) l), length_app. simpl.
    assert (length (filter (λ x, key x = k) l) ≤ n) by (apply Hgroups; left).
    assert (length (filter (λ x, ¬ key x = k) l) ≤ n * length ks); [|lia].
    apply IH.
    + intros x [Hne Hx]%list_elem_of_filter.
      specialize (Hall x Hx). apply elem_of_cons in Hall as [?|Hin]; [done|exact Hin].
    + intros k' Hk'. rewrite list_filter_filter.
      etrans; [|apply (Hgroups k'); by right].
      apply length_filter_le_imp. by intros x [? _].
Qed.

(** X23. On a reachable database the statistics of the portal are tied
    together: there are as many active licences as users, at most three
    activations for each of them, at most as many activations seen since
    yesterday as activations, and the version distribution gives for each
    version that some activation runs the number of the activations that
    run it, and has no entry for any other version. *)
Theorem portal_stats_are_consistent (NEXUS_SECRET : option string) d yesterday :
  reachable NEXUS_SECRET d →
  let st := get_stats d yesterday in
  total_licenses st = total_users st
  ∧ (total_clients st ≤ 3 * total_licenses st)%Z
  ∧ (0 ≤ active_today st ≤ total_clients st)%Z
  ∧ (∀ v n, version_distribution st !! v = Some n ↔
       (0 < n)%Z ∧ n = count_where (λ c, cl_version c = v) (clients d)).
Proof.
  intros (Hact & _ & Hacc & _)%reachable_portal_inv. simpl.
  assert (Hlic : count_where (λ l, lic_is_active l = true) (licenses d)
                 = Z.of_nat (length (users d))).
  { unfold count_where. rewrite filter_all.
    - by rewrite <- (length_fmap lic_user_id), (lic_users d Hacc), length_fmap.
    - intros l Hl. by destruct (lic_standard d Hacc l Hl). }
  split_and!.
  - done.
  - rewrite Hlic, <- (length_fmap usr_id), <- (lic_users d Hacc), length_fmap.
    rewrite <- (length_fmap lic_id (licenses d)).
    assert (length (clients d) ≤ 3 * length (lic_id <$> licenses d)); [|lia].
    apply (length_le_groups cl_license_id).
    + apply Hact.
    + intros c Hc. destruct (cl_has_license d Hacc c Hc) as (l & Hl & <-).
      apply list_elem_of_fmap. by exists l.
    + intros k (l & -> & Hl)%list_elem_of_fmap.
      pose proof (within_limit d Hact l Hl) as Hlim.
      destruct (lic_standard d Hacc l Hl) as (_ & _ & Hmax).
      unfold activations, count_where in Hlim. lia.
  - unfold count_where. lia.
  - unfold count_where. apply inj_le, length_filter.
  - intros v n. rewrite <- elem_of_list_to_map.
    + rewrite list_elem_of_fmap. setoid_rewrite elem_of_remove_dups.
      setoid_rewrite list_elem_of_fmap. unfold count_where. split.
      * intros (v' & [= -> ->] & c & -> & Hc). split; [|done].
        assert (Hin : c ∈ filter (λ c', cl_version c' = cl_version c) (clients d))
          by (by apply list_elem_of_filter).
        destruct (filter _ (clients d)); [by apply not_elem_of_nil in Hin|simpl; lia].
      * intros [Hpos ->]. exists v. split; [done|].
        destruct (filter (λ c, cl_version c = v) (clients d)) as [|c cs] eqn:Hf;
          [simpl in Hpos; lia|].
        assert (Hin : c ∈ filter (λ c, cl_version c = v) (clients d))
          by (rewrite Hf; left).
        apply list_elem_of_filter in Hin as [<- Hin]. by exists c.
    + rewrite <- list_fmap_compose. simpl. rewrite list_fmap_id. apply NoDup_remove_dups.
Qed.

Lemma portal_stats_are_consistent_witness :
  total_licenses (get_stats station_db 0) = 1%Z
  ∧ (total_clients (get_stats station_db 0) ≤ 3 * total_licenses (get_stats station_db 0))%Z.
Proof.
  destruct (portal_stats_are_consistent None station_db 0 (ex_intro _ station_calls eq_refl))
    as (Hlic & Hclients & _).
  split; [by rewrite Hlic | exact Hclients].
Defined.

(** *** A credit followed by a withdrawal *)


End PortalViewsFacts.
